(** * The BGP session engine of internal/bgp/bgp.go

    A shallow embedding of the [Session] object: the control surface
    ([Set], [Close]), the connector ([connect]), the writer
    ([sendUpdates]), the keepalive ticker ([sendKeepalives]) and the
    exit path of the reader ([consumeBGP]).

    Every method of the source runs under [s.mu]; the only place where the
    lock is released in the middle of a method is [s.cond.Wait()] in the
    writer.  The methods are therefore functions from state to state, and
    the writer consumes, for each call of [Wait], the list of the critical
    sections other goroutines run before it has the lock again.

    The metrics sink ([stats.*]) and the log are write-only and are left
    out.  Pointers to advertisements are taken to be non-nil, as [Set]
    dereferences them unconditionally. *)

From stdpp Require Import gmap strings list fin_maps pretty.
From Stdlib Require Import ZArith Lia.

(** ** Values of the Go [net] and [reflect] packages *)

Module Net.

(** [net.IP] is a byte slice.  [To4] and [Equal] only look at its length
    and bytes, so a nil and an empty slice are the same value here. *)
Abbreviation IP := (list Z) (only parsing).

Definition IPv4len : nat := 4.
Definition IPv6len : nat := 16.

Definition v4InV6Prefix : list Z :=
  [0; 0; 0; 0; 0; 0; 0; 0; 0; 0; 255; 255]%Z.

Definition bytesEqual (a b : list Z) : bool := bool_decide (a = b).

Definition isZeros (p : list Z) : bool := forallb (Z.eqb 0) p.

(** [func (ip IP) To4() IP]: [None] is the nil result. *)
Definition To4 (ip : IP) : option IP :=
  if (length ip =? IPv4len)%nat then Some ip
  else if (length ip =? IPv6len)%nat
          && isZeros (take 10 ip)
          && bool_decide (ip !! 10%nat = Some 255%Z)
          && bool_decide (ip !! 11%nat = Some 255%Z)
       then Some (take 4 (drop 12 ip))
       else None.

(** [func (ip IP) Equal(x IP) bool]: the 4-byte and the 16-byte form of
    one IPv4 address are equal. *)
Definition Equal (ip x : IP) : bool :=
  if (length ip =? length x)%nat then bytesEqual ip x
  else if (length ip =? IPv4len)%nat && (length x =? IPv6len)%nat
       then bytesEqual (take 12 x) v4InV6Prefix && bytesEqual ip (drop 12 x)
  else if (length ip =? IPv6len)%nat && (length x =? IPv4len)%nat
       then bytesEqual (take 12 ip) v4InV6Prefix && bytesEqual (drop 12 ip) x
  else false.

(** [net.IPNet] *)
Record IPNet := mkIPNet { IPNet_IP : IP; IPNet_Mask : list Z }.

#[global] Instance IPNet_eq_dec : EqDecision IPNet.
Proof. solve_decision. Defined.

End Net.

(** A Go slice is nil or holds elements; [reflect.DeepEqual] tells a nil
    slice from a non-nil empty one. *)
Abbreviation slice A := (option (list A)) (only parsing).

Definition elems {A} (x : slice A) : list A := default [] x.

Definition len {A} (x : slice A) : nat := length (elems x).

(** [reflect.DeepEqual] at type [[]uint32]: both nil or both non-nil, the
    same length, and equal elements position by position. *)
Definition DeepEqual (x y : slice Z) : bool :=
  match x, y with
  | None, None => true
  | Some a, Some b => (length a =? length b)%nat && forallb (fun p => Z.eqb p.1 p.2) (zip a b)
  | _, _ => false
  end.

(** ** Advertisements and wire messages *)

Record Advertisement := mkAdv {
  Prefix : Net.IPNet;
  NextHop : Net.IP;
  LocalPref : Z;
  Communities : slice Z
}.

#[global] Instance Advertisement_eq_dec : EqDecision Advertisement.
Proof. solve_decision. Defined.

(** What the encoders of messages.go are asked to put on the socket. *)
Inductive Msg :=
| MOpen (asn : Z) (routerID : Net.IP) (hold : Z)
| MKeepalive
| MUpdate (asn : Z) (adv : Advertisement)
| MWithdraw (prefixes : list Net.IPNet).

#[global] Instance Msg_eq_dec : EqDecision Msg.
Proof. solve_decision. Defined.

(** A connection is known by its identity only. *)
Definition Conn := nat.

Inductive Error :=
| errClosed
| errDial
| errSendOpen
| errReadOpen
| errPeerASN (got want : Z)
| errAcceptOpen
| errSendUpdate (c : string)
| errSendWithdraw (wdr : list Net.IPNet)
| errSendKeepalive
| errNonV4Prefix (p : Net.IPNet)
| errNextHop (ip : Net.IP)
| errCommunities (n : nat)
| errRouterID (ip : Net.IP).

(** ** The session and its surroundings *)

Record Session := mkSession {
  asn : Z;
  routerID : Net.IP;
  addr : string;
  peerASN : Z;
  holdTime : Z;
  newHoldTime : bool;        (* the one-slot channel: is the slot full *)
  closed : bool;
  conn : option Conn;
  actualHoldTime : Z;
  advertised : gmap string Advertisement;
  new : option (gmap string Advertisement)
}.

Definition with_conn (s : Session) (c : option Conn) : Session :=
  mkSession (asn s) (routerID s) (addr s) (peerASN s) (holdTime s)
    (newHoldTime s) (closed s) c (actualHoldTime s) (advertised s) (new s).

Definition with_closed (s : Session) (b : bool) : Session :=
  mkSession (asn s) (routerID s) (addr s) (peerASN s) (holdTime s)
    (newHoldTime s) b (conn s) (actualHoldTime s) (advertised s) (new s).

Definition with_new (s : Session) (n : option (gmap string Advertisement)) : Session :=
  mkSession (asn s) (routerID s) (addr s) (peerASN s) (holdTime s)
    (newHoldTime s) (closed s) (conn s) (actualHoldTime s) (advertised s) n.

(** [s.advertised, s.new = m, nil] *)
Definition promote (s : Session) (m : gmap string Advertisement) : Session :=
  mkSession (asn s) (routerID s) (addr s) (peerASN s) (holdTime s)
    (newHoldTime s) (closed s) (conn s) (actualHoldTime s) m None.

Definition with_hold (s : Session) (ht : Z) (slot : bool) : Session :=
  mkSession (asn s) (routerID s) (addr s) (peerASN s) (holdTime s)
    slot (closed s) (conn s) ht (advertised s) (new s).

(** The world outside the session: what reached the peers, which sockets
    were closed, how the coming writes will end ([false] is an error; past
    the end of the script every write succeeds), and how many [range]
    loops over a map have been started. *)
Record World := mkWorld {
  wire : list (Conn * Msg);
  closedConns : list Conn;
  script : list bool;
  ranges : nat
}.

(** What Go leaves to its runtime and library: the text of a prefix
    ([net.IPNet.String]) and the order in which a [range] loop visits a
    map, which may change from one loop to the next. *)
Class GoRuntime := {
  IPNet_String : Net.IPNet -> string;
  range : nat -> gmap string Advertisement -> list (string * Advertisement);
  range_perm : forall i m, range i m ≡ₚ map_to_list m
}.

(** ** The methods of [Session] *)

Section Engine.
Context `{GoRuntime}.

(** *** Sockets *)

Definition closeConn (c : Conn) (w : World) : World :=
  mkWorld (wire w) (c :: closedConns w) (script w) (ranges w).

(** One write of an encoded message on a live socket. *)
Definition write (c : Conn) (m : Msg) (w : World) : World * bool :=
  match script w with
  | false :: sc => (mkWorld (wire w) (closedConns w) sc (ranges w), false)
  | true :: sc => (mkWorld (wire w ++ [(c, m)]) (closedConns w) sc (ranges w), true)
  | [] => (mkWorld (wire w ++ [(c, m)]) (closedConns w) [] (ranges w), true)
  end.

(** The entries of [m] in the order of the [range] loop now starting. *)
Definition next_range (m : gmap string Advertisement) (w : World)
  : list (string * Advertisement) * World :=
  (range (ranges w) m,
   mkWorld (wire w) (closedConns w) (script w) (S (ranges w))).

(** *** [abort], [Set], [Close] *)

Definition abort (s : Session) (w : World) : Session * World :=
  let '(s1, w1) :=
    match conn s with
    | Some c => (with_conn s None, closeConn c w)
    | None => (s, w)
    end in
  match new s1 with
  | Some n => (promote s1 n, w1)
  | None => (s1, w1)
  end.

(** The body of the loop of [Set], threading [newAdvs]. *)
Fixpoint Set_loop (advs : list Advertisement) (newAdvs : gmap string Advertisement)
  : Error + gmap string Advertisement :=
  match advs with
  | [] => inr newAdvs
  | adv :: rest =>
      match Net.To4 (Net.IPNet_IP (Prefix adv)) with
      | None => inl (errNonV4Prefix (Prefix adv))
      | Some _ =>
          match Net.To4 (NextHop adv) with
          | None => inl (errNextHop (NextHop adv))
          | Some _ =>
              if (63 <? len (Communities adv))%nat
              then inl (errCommunities (len (Communities adv)))
              else Set_loop rest (<[IPNet_String (Prefix adv) := adv]> newAdvs)
          end
      end
  end.

Definition Session_Set (s : Session) (advs : list Advertisement)
  : Session * option Error :=
  match Set_loop advs ∅ with
  | inl e => (s, Some e)
  | inr newAdvs => (with_new s (Some newAdvs), None)
  end.

Definition Session_Close (s : Session) (w : World) : Session * World :=
  abort (with_closed s true) w.

(** *** The keepalive ticker *)

Definition sendKeepalive (s : Session) (w : World) : Session * World * option Error :=
  if closed s then (s, w, Some errClosed)
  else match conn s with
       | None => (s, w, None)
       | Some c =>
           let '(w1, ok) := write c MKeepalive w in
           if ok then (s, w1, None)
           else let '(s2, w2) := abort s w1 in (s2, w2, Some errSendKeepalive)
       end.

(** The two cases of the [select] of [sendKeepalives].  The local state is
    the period of the running [time.Ticker], if any ([ch] is its channel,
    or nil).  [time.NewTicker] panics when asked for a period that is not
    positive. *)
Inductive TickerEvent := HoldPublished | Tick.

Inductive TickerState := TickerRuns (t : option Z) | TickerDone | TickerPanics.

Definition NewTicker (d : Z) : TickerState :=
  if (0 <? d)%Z then TickerRuns (Some d) else TickerPanics.

(** [None]: the case cannot fire (empty slot, or nil [ch]). *)
Definition sendKeepalives_step (ev : TickerEvent) (t : option Z) (s : Session) (w : World)
  : option (TickerState * Session * World) :=
  match ev with
  | HoldPublished =>
      if newHoldTime s then
        let ht := actualHoldTime s in
        Some (if (ht =? 0)%Z then TickerRuns None else NewTicker (ht ÷ 3)%Z,
              with_hold s ht false, w)
      else None
  | Tick =>
      match t with
      | None => None
      | Some _ =>
          let '(s1, w1, err) := sendKeepalive s w in
          match err with
          | Some errClosed => Some (TickerDone, s1, w1)
          | _ => Some (TickerRuns t, s1, w1)
          end
      end
  end.

(** *** The connector *)

(** What the network answers to one attempt: the socket [net.Dial] returns
    and the (ASN, hold time) [readOpen] decodes, each possibly an error. *)
Record Attempt := mkAttempt {
  dialed : option Conn;
  peerOpen : option (Z * Z)
}.

Definition connect (p : Attempt) (s : Session) (w : World)
  : Session * World * option Error :=
  match dialed p with
  | None => (s, w, Some errDial)
  | Some c =>
      let '(w1, ok) := write c (MOpen (asn s) (routerID s) (holdTime s)) w in
      if negb ok then (s, closeConn c w1, Some errSendOpen)
      else match peerOpen p with
           | None => (s, closeConn c w1, Some errReadOpen)
           | Some (a, requestedHold) =>
               if negb (a =? peerASN s)%Z
               then (s, closeConn c w1, Some (errPeerASN a (peerASN s)))
               else
                 let '(w2, ok2) := write c MKeepalive w1 in
                 if negb ok2 then (s, closeConn c w2, Some errAcceptOpen)
                 else
                   let ht := if (requestedHold <? holdTime s)%Z
                             then requestedHold else holdTime s in
                   (with_conn (with_hold s ht true) (Some c), w2, None)
           end
  end.

(** [New], without the goroutines it starts. *)
Definition New (a : string) (localASN : Z) (rid : Net.IP) (peer : Z) (hold : Z)
  : Error + Session :=
  match Net.To4 rid with
  | None => inl (errRouterID rid)
  | Some rid4 => inr (mkSession localASN rid4 a peer hold false false None 0 ∅ None)
  end.

(** *** The reader *)

(** The deferred function of [consumeBGP]. *)
Definition consumeBGP_exit (c : Conn) (s : Session) (w : World) : Session * World :=
  if bool_decide (conn s = Some c) then abort s w
  else (s, closeConn c w).

Inductive ReaderStop := StopRead | StopMarker.

Definition be16 (hi lo : Z) : Z := (hi * 256 + lo)%Z.

(** The loop of [consumeBGP] over the bytes the peer sends before the
    stream ends.  A header is 19 bytes; [io.Copy] over the [LimitReader]
    discards up to [Len - 19] bytes and does not report a short body. *)
Fixpoint consumeBGP_loop (fuel : nat) (input : list Z) : option ReaderStop :=
  match fuel with
  | O => None
  | S fuel' =>
      if (length input <? 19)%nat then Some StopRead
      else if negb (forallb (Z.eqb 255) (take 16 input)) then Some StopMarker
      else
        let Len := be16 (default 0%Z (input !! 16%nat)) (default 0%Z (input !! 17%nat)) in
        consumeBGP_loop fuel' (drop (Z.to_nat (Len - 19)) (drop 19 input))
  end.

Definition consumeBGP (c : Conn) (input : list Z) (s : Session) (w : World)
  : option (ReaderStop * (Session * World)) :=
  match consumeBGP_loop (S (length input)) input with
  | Some why => Some (why, consumeBGP_exit c s w)
  | None => None
  end.

(** *** The writer *)

(** The ASN handed to the encoder: 0 stands for an empty AS_PATH. *)
Definition wire_asn (s : Session) : Z :=
  if (peerASN s =? asn s)%Z then 0%Z else asn s.

(** The test of line 106: the peer already holds this advertisement. *)
Definition up_to_date (advd : gmap string Advertisement) (c : string) (adv : Advertisement) : bool :=
  match advd !! c with
  | Some adv2 =>
      Net.Equal (NextHop adv2) (NextHop adv)
      && DeepEqual (Communities adv2) (Communities adv)
  | None => false
  end.

(** [for c, adv := range ... { if skip { continue }; sendUpdate(...) }]:
    the loop stops at the first failed write and reports its key. *)
Fixpoint send_each (cn : Conn) (a : Z) (skip : string -> Advertisement -> bool)
  (l : list (string * Advertisement)) (w : World) : World * option string :=
  match l with
  | [] => (w, None)
  | (c, adv) :: l' =>
      if skip c adv then send_each cn a skip l' w
      else
        let '(w1, ok) := write cn (MUpdate a adv) w in
        if ok then send_each cn a skip l' w1 else (w1, Some c)
  end.

(** The loop of lines 119-124 over the entries of [advertised]. *)
Fixpoint withdrawals (l : list (string * Advertisement)) (n : gmap string Advertisement)
  : list Net.IPNet :=
  match l with
  | [] => []
  | (c, adv) :: l' =>
      match n !! c with
      | None => Prefix adv :: withdrawals l' n
      | Some _ => withdrawals l' n
      end
  end.

(** Lines 105-133: one diff of [s.new = n] against [s.advertised] on the
    live connection [cn]. *)
Definition diff (a : Z) (cn : Conn) (n : gmap string Advertisement) (s : Session) (w : World)
  : Session * World * option Error :=
  let '(ln, w0) := next_range n w in
  let '(w1, failed) := send_each cn a (up_to_date (advertised s)) ln w0 in
  match failed with
  | Some c => let '(s', w') := abort s w1 in (s', w', Some (errSendUpdate c))
  | None =>
      let '(la, w2) := next_range (advertised s) w1 in
      let wdr := withdrawals la n in
      if (0 <? length wdr)%nat then
        let '(w3, ok) := write cn (MWithdraw wdr) w2 in
        if ok then (promote s n, w3, None)
        else let '(s', w') := abort s w3 in (s', w', Some (errSendWithdraw wdr))
      else (promote s n, w2, None)
  end.

(** How a call of [sendUpdates] ends: it returns, stays parked in
    [cond.Wait] because nothing wakes it any more, or panics writing to a
    nil connection.  [Exhausted] is the model running out of fuel. *)
Inductive Outcome :=
| Returned (e : option Error)
| Parked
| Panicked
| Exhausted.

(** Lines 70-86, the pass made on entry.  [run] releases the lock between
    [connect] and [sendUpdates], so [s.conn] may be nil again by now. *)
Definition first_pass (s : Session) (w : World) : Session * World * option Outcome :=
  let a := wire_asn s in
  let s1 := match new s with Some n => promote s n | None => s end in
  let '(l, w0) := next_range (advertised s1) w in
  match conn s1 with
  | None =>
      match l with
      | [] => (s1, w0, None)
      | _ :: _ => (s1, w0, Some Panicked)
      end
  | Some cn =>
      let '(w1, failed) := send_each cn a (fun _ _ => false) l w0 in
      match failed with
      | Some c => let '(s', w') := abort s1 w1 in
                  (s', w', Some (Returned (Some (errSendUpdate c))))
      | None => (s1, w1, None)
      end
  end.

(** What other goroutines do under the lock while the writer waits. *)
Inductive Event :=
| EvSet (advs : list Advertisement)
| EvClose
| EvTick
| EvHold
| EvReaderExit (c : Conn)
| EvSpurious.

Definition run_event (e : Event) (s : Session) (w : World) : Session * World :=
  match e with
  | EvSet advs => ((Session_Set s advs).1, w)
  | EvClose => Session_Close s w
  | EvTick => (sendKeepalive s w).1
  | EvHold => (with_hold s (actualHoldTime s) false, w)
  | EvReaderExit c => consumeBGP_exit c s w
  | EvSpurious => (s, w)
  end.

(** Critical sections of other goroutines, one after the other. *)
Fixpoint run_events (evs : list Event) (s : Session) (w : World) : Session * World :=
  match evs with
  | [] => (s, w)
  | e :: evs' => let '(s', w') := run_event e s w in run_events evs' s' w'
  end.

(** [for s.new == nil && s.conn != nil { s.cond.Wait() }].  One call of
    [Wait] gives the lock away and takes it back some time after a
    broadcast, or for no reason at all: in between, other goroutines run
    any number of critical sections, which need not stop at the one that
    woke the writer.  Each element of [evs] is what runs during one call
    of [Wait]; the loop tests its condition again only after all of it.
    [None] when the calls run out with the writer still waiting. *)
Fixpoint wait (evs : list (list Event)) (s : Session) (w : World)
  : option (list (list Event)) * Session * World :=
  match new s, conn s with
  | None, Some _ =>
      match evs with
      | [] => (None, s, w)
      | b :: evs' => let '(s', w') := run_events b s w in wait evs' s' w'
      end
  | _, _ => (Some evs, s, w)
  end.

(** The loop of lines 88-134. *)
Fixpoint steady (fuel : nat) (a : Z) (evs : list (list Event)) (s : Session) (w : World)
  : Session * World * Outcome :=
  match fuel with
  | O => (s, w, Exhausted)
  | S fuel' =>
      match wait evs s w with
      | (None, s1, w1) => (s1, w1, Parked)
      | (Some evs1, s1, w1) =>
          if closed s1 then (s1, w1, Returned (Some errClosed))
          else match conn s1 with
               | None => (s1, w1, Returned None)
               | Some cn =>
                   match new s1 with
                   | None => steady fuel' a evs1 s1 w1
                   | Some n =>
                       let '(s2, w2, err) := diff a cn n s1 w1 in
                       match err with
                       | Some e => (s2, w2, Returned (Some e))
                       | None => steady fuel' a evs1 s2 w2
                       end
                   end
               end
      end
  end.

Definition sendUpdates (fuel : nat) (evs : list (list Event)) (s : Session) (w : World)
  : Session * World * Outcome :=
  let '(s1, w1, stop) := first_pass s w in
  match stop with
  | Some o => (s1, w1, o)
  | None => steady fuel (wire_asn s) evs s1 w1
  end.

End Engine.

(** ** Vocabulary of the statements *)

Section Vocabulary.
Context `{GoRuntime}.

(** The UPDATE writes for a list of entries. *)
Definition updates (cn : Conn) (a : Z) (l : list (string * Advertisement)) : list (Conn * Msg) :=
  (fun p => (cn, MUpdate a p.2)) <$> l.

(** The entries a loop does not skip. *)
Definition to_send (skip : string -> Advertisement -> bool) (l : list (string * Advertisement))
  : list (string * Advertisement) :=
  filter (fun p => skip p.1 p.2 = false) l.

(** The writes a diff makes when none fails: one UPDATE for each entry it
    does not skip, and one WITHDRAW if a prefix is to be withdrawn. *)
Definition diff_writes (n : gmap string Advertisement) (s : Session) (w : World) : nat :=
  length (to_send (up_to_date (advertised s)) (range (ranges w) n))
  + (if decide (withdrawals (range (S (ranges w)) (advertised s)) n = []) then 0 else 1).

(** The writes of the pass made on entry: one UPDATE for each entry of the
    promoted set. *)
Definition entry_writes (s : Session) (w : World) : nat :=
  length (range (ranges w) (default (advertised s) (new s))).

(** The three checks of [Set] on one advertisement. *)
Definition invalid (adv : Advertisement) : Prop :=
  Net.To4 (Net.IPNet_IP (Prefix adv)) = None
  \/ Net.To4 (NextHop adv) = None
  \/ 63 < len (Communities adv).

Definition valid (adv : Advertisement) : Prop :=
  is_Some (Net.To4 (Net.IPNet_IP (Prefix adv)))
  /\ is_Some (Net.To4 (NextHop adv))
  /\ len (Communities adv) <= 63.

(** The desired set the spec describes: the advertisements keyed by the
    text of their prefix, entered in argument order. *)
Definition keyed (m : gmap string Advertisement) (advs : list Advertisement)
  : gmap string Advertisement :=
  foldl (fun acc adv => <[IPNet_String (Prefix adv) := adv]> acc) m advs.

End Vocabulary.

(** One of the next [k] writes fails. *)
Definition write_fails (k : nat) (w : World) : Prop :=
  exists i, i < k /\ script w !! i = Some false.

(** The messages written between two worlds. *)
Definition emitted (w w' : World) : list (Conn * Msg) :=
  drop (length (wire w)) (wire w').

Definition is_update (m : Conn * Msg) : Prop :=
  match m.2 with MUpdate _ _ => True | _ => False end.

Definition is_withdraw (m : Conn * Msg) : Prop :=
  match m.2 with MWithdraw _ => True | _ => False end.

#[global] Instance is_update_dec m : Decision (is_update m).
Proof. unfold is_update. destruct (m.2); apply _. Defined.

#[global] Instance is_withdraw_dec m : Decision (is_withdraw m).
Proof. unfold is_withdraw. destruct (m.2); apply _. Defined.

(** An UPDATE carries the ASN [a]; other messages carry none. *)
Definition carries (a : Z) (m : Conn * Msg) : Prop :=
  match m.2 with MUpdate x _ => x = a | _ => True end.

(** [w'] is [w] after some writes whose UPDATEs all carry [a]. *)
Definition grows (a : Z) (w w' : World) : Prop :=
  exists ext, wire w' = wire w ++ ext /\ Forall (carries a) ext.

(** The condition of the wait loop of the writer. *)
Definition waiting (s : Session) : bool :=
  match new s, conn s with
  | None, Some _ => true
  | _, _ => false
  end.

(** [time.Second], in the nanoseconds of [time.Duration]. *)
Definition second : Z := 1000000000.

(** The local state of the ticker after a step. *)
Definition ticker_after (r : option (TickerState * Session * World)) : option TickerState :=
  (fun x => x.1.1) <$> r.

(** ** A runtime to compute with *)

Module Example.

Definition dotted (ip : list Z) : string :=
  String.concat "." (pretty <$> ip).

Definition ones (b : Z) : nat :=
  length (filter (fun i => Z.testbit b (Z.of_nat i) = true) (seq 0 8)).

(** The CIDR text of an IPv4 network with a 4-byte address and mask. *)
Definition cidr (p : Net.IPNet) : string :=
  dotted (Net.IPNet_IP p) +:+ "/" +:+ pretty (sum_list (ones <$> Net.IPNet_Mask p)).

Definition runtime : GoRuntime :=
  {| IPNet_String := cidr;
     range := fun _ m => map_to_list m;
     range_perm := fun _ m => reflexivity (map_to_list m) |}.

Definition net24 (a b c : Z) : Net.IPNet :=
  Net.mkIPNet [a; b; c; 0%Z] [255; 255; 255; 0]%Z.

Definition s0 : Session :=
  mkSession 65001 [10; 0; 0; 1]%Z "192.0.2.1:179" 65002 90000000000 false false
    (Some 7%nat) 90000000000 ∅ None.

Definition w0 : World := mkWorld [] [] [] 0.

Definition gw : list Z := [10; 0; 0; 1]%Z.

Definition A1 : Advertisement := mkAdv (net24 10 1 0) gw 100 (Some [100%Z]).
Definition A1' : Advertisement := mkAdv (net24 10 1 0) [10; 0; 0; 2]%Z 200 None.
Definition A2 : Advertisement := mkAdv (net24 10 2 0) gw 100 None.
Definition A2e : Advertisement := mkAdv (net24 10 2 0) gw 100 (Some []).
Definition A3 : Advertisement := mkAdv (net24 10 3 0) gw 100 None.
Definition A4 : Advertisement := mkAdv (net24 10 4 0) gw 100 None.

(** A world in which the second write fails. *)
Definition w_cut : World := mkWorld [] [] [true; false] 0.

(** [s0] before its first connection, and with a peer in the same AS. *)
Definition idle : Session :=
  mkSession 65001 [10; 0; 0; 1]%Z "192.0.2.1:179" 65002 (90 * second) false false
    None 0 ∅ None.

Definition ibgp : Session :=
  mkSession 65001 [10; 0; 0; 1]%Z "192.0.2.1:179" 65001 (90 * second) false false
    (Some 7%nat) (90 * second) ∅ None.

(** One community too many. *)
Definition A64 : Advertisement :=
  mkAdv (net24 10 9 0) gw 100 (Some (replicate 64 100%Z)).

(** A session whose peer holds [advs]. *)
Definition holding (advs : list Advertisement) : Session :=
  mkSession 65001 gw "192.0.2.1:179" 65002 90000000000 false false
    (Some 7%nat) 90000000000 (keyed (H := runtime) ∅ advs) None.

(** The same with [advs'] pending. *)
Definition wanting (advs advs' : list Advertisement) : Session :=
  with_new (holding advs) (Some (keyed (H := runtime) ∅ advs')).

End Example.

(** ** The connector loop *)

Section Connector.
Context `{GoRuntime}.

(** [backoff], in nanoseconds. *)
Definition backoff : Z := (2 * second)%Z.

(** One turn of the loop of [run], seen from outside: what other
    goroutines do before [connect] takes the lock (the backoff sleep of
    the turn before included), what the network answers, what happens
    between the return of [connect] and the entry of [sendUpdates], and
    what runs during each wait of the writer. *)
Record Round := mkRound {
  idle : list Event;
  attempt : Attempt;
  mid : list Event;
  during : list (list Event)
}.

(** [run] returns (the session was closed), or is left in a writer that
    waits for good or panicked, or is still retrying when the rounds run
    out. *)
Inductive RunOutcome :=
| RunReturned
| RunParked
| RunPanicked
| RunRetrying
| RunExhausted.

(** Lines 43-64.  [slept] adds up the backoff sleeps. *)
Fixpoint run (rounds : list Round) (slept : Z) (s : Session) (w : World)
  : Session * World * Z * RunOutcome :=
  match rounds with
  | [] => (s, w, slept, RunRetrying)
  | r :: rest =>
      let '(s0, w0) := run_events (idle r) s w in
      let '(s1, w1, err) := connect (attempt r) s0 w0 in
      match err with
      | Some _ => run rest (slept + backoff)%Z s1 w1
      | None =>
          let '(s2, w2) := run_events (mid r) s1 w1 in
          let '(s3, w3, o) := sendUpdates (length (during r) + 2) (during r) s2 w2 in
          match o with
          | Returned (Some errClosed) => (s3, w3, slept, RunReturned)
          | Returned _ => run rest slept s3 w3
          | Parked => (s3, w3, slept, RunParked)
          | Panicked => (s3, w3, slept, RunPanicked)
          | Exhausted => (s3, w3, slept, RunExhausted)
          end
      end
  end.

(** The keys of a map are the texts of the prefixes of its values, and
    its values passed the checks of [Set]. *)
Definition well_keyed (m : gmap string Advertisement) : Prop :=
  forall c adv, m !! c = Some adv -> IPNet_String (Prefix adv) = c /\ valid adv.

Definition well_formed (s : Session) : Prop :=
  well_keyed (advertised s) /\ forall n, new s = Some n -> well_keyed n.

End Connector.

(** The connection of the session, if any, is not a closed socket. *)
Definition live_open (s : Session) (w : World) : Prop :=
  forall c, conn s = Some c -> c ∉ closedConns w.

(** The fields no method assigns after [New]. *)
Definition config (s : Session) : Z * list Z * string * Z * Z :=
  (asn s, routerID s, addr s, peerASN s, holdTime s).

(** [s'] has the configuration of [s] and is closed if [s] was. *)
Definition keeps (s s' : Session) : Prop :=
  config s' = config s /\ (closed s = true -> closed s' = true).

(** The prefixes a list of messages announces, and those it withdraws. *)
Definition announced (l : list (Conn * Msg)) : list Net.IPNet :=
  omap (fun m => match m.2 with MUpdate _ adv => Some (Prefix adv) | _ => None end) l.

Definition withdrawn (l : list (Conn * Msg)) : list Net.IPNet :=
  concat (omap (fun m => match m.2 with MWithdraw ps => Some ps | _ => None end) l).

(** A BGP message as the peer frames it: the marker, the length of the
    whole message on two bytes, the type, the body. *)
Definition marker : list Z := replicate 16 255%Z.

Definition frame (type : Z) (body : list Z) : list Z :=
  marker
  ++ [((Z.of_nat (19 + length body) / 256) mod 256)%Z;
      (Z.of_nat (19 + length body) mod 256)%Z; type]
  ++ body.

Definition stream (msgs : list (Z * list Z)) : list Z :=
  concat ((fun m => frame m.1 m.2) <$> msgs).

(** ** The FRR queries of the end-to-end tests *)

Module Frr.

(** An [executor.Executor]: the command lines run so far and the answers
    to the coming ones (output and error; past the end, empty successes). *)
Inductive error :=
| ExecError
| ParseError
| Wrapped (msg : string) (cause : error).

Record Shell := mkShell {
  log : list (list string);
  answers : list (string * option error)
}.

Definition Exec (cmd : string) (args : list string) (sh : Shell)
  : Shell * (string * option error) :=
  match answers sh with
  | [] => (mkShell (log sh ++ [cmd :: args]) [], (EmptyString, None))
  | a :: rest => (mkShell (log sh ++ [cmd :: args]) rest, a)
  end.

(** [errors.Wrapf] of github.com/pkg/errors: nil stays nil. *)
Definition Wrapf (err : option error) (msg : string) : option error :=
  Wrapped msg <$> err.

(** [strings.Contains] *)
Fixpoint Contains (s substr : string) : bool :=
  Stdlib.Strings.String.prefix substr s
  || match s with
     | EmptyString => false
     | String _ s' => Contains s' substr
     end.

Definition nl : string := String (Ascii.ascii_of_nat 10) EmptyString.

Definition ContainsCommunity (community : string) (sh : Shell) : Shell * option error :=
  let '(sh1, (res, err)) := Exec "vtysh" ["-c"; "show bgp community-info"] sh in
  match err with
  | Some _ => (sh1, err)
  | None =>
      if negb (Contains res community)
      then (sh1, Wrapf err ("show community " +:+ res +:+ " doesn't include " +:+ community))
      else (sh1, None)
  end.

(** The loop of [RawDump] over the files. *)
Fixpoint dump_files (files : list string) (res : string) (sh : Shell)
  : Shell * (string * option error) :=
  match files with
  | [] => (sh, (res, None))
  | file :: rest =>
      let res1 := res +:+ "####### Dumping file " +:+ file +:+ nl in
      let '(sh1, (out, err)) := Exec "cat" [file] sh in
      match err with
      | Some _ =>
          (sh1, (EmptyString, Wrapf err ("Failed to cat " +:+ file +:+ " file " +:+ res1)))
      | None => dump_files rest (res1 +:+ out) sh1
      end
  end.

Definition RawDump (filesToDump : list string) (sh : Shell) : Shell * (string * option error) :=
  let res := "####### Show running config" +:+ nl in
  let '(sh1, (out, err)) := Exec "vtysh" ["-c"; "show running-config"] sh in
  match err with
  | Some _ => (sh1, (EmptyString, Wrapf err ("Failed exec show bgp neighbor " +:+ res)))
  | None =>
      let res := res +:+ out in
      let '(sh2, (res, err)) := dump_files filesToDump res sh1 in
      match err with
      | Some _ => (sh2, (EmptyString, err))
      | None =>
          let res := res +:+ "####### BGP Neighbors" +:+ nl in
          let '(sh3, (out, err)) := Exec "vtysh" ["-c"; "show bgp neighbor"] sh2 in
          match err with
          | Some _ =>
              (sh3, (EmptyString, Wrapf err ("Failed exec show bgp neighbor " +:+ res)))
          | None =>
              let res := res +:+ out in
              let res := res +:+ "####### BFD Peers" +:+ nl in
              let '(sh4, (out, err)) := Exec "vtysh" ["-c"; "show bfd peer"] sh3 in
              match err with
              | Some _ =>
                  (sh4, (EmptyString, Wrapf err ("Failed exec show bfd peer " +:+ res)))
              | None => (sh4, (res +:+ out, None))
              end
          end
      end
  end.

(** The sections of a dump. *)
Definition file_section (file out : string) : string :=
  "####### Dumping file " +:+ file +:+ nl +:+ out.

(** The sections for [files], given the outputs of their [cat]s. *)
Fixpoint sections (files : list string) (outs : list string) : string :=
  match files with
  | [] => EmptyString
  | f :: fs => file_section f (hd EmptyString outs) +:+ sections fs (tl outs)
  end.

Definition cats (files : list string) : list (list string) :=
  (fun f => ["cat"; f]) <$> files.

Definition succeeded (a : string * option error) : Prop := a.2 = None.

Definition queries (files : list string) : list (list string) :=
  ["vtysh"; "-c"; "show running-config"]
  :: ((fun f => ["cat"; f]) <$> files)
  ++ [["vtysh"; "-c"; "show bgp neighbor"]; ["vtysh"; "-c"; "show bfd peer"]].

End Frr.

(** More sessions to compute with. *)
Module Scenario.

(** A closed session that still has an advertised set. *)
Definition shut : Session :=
  mkSession 65001 Example.gw "192.0.2.1:179" 65002 (90 * second) false true
    None (90 * second) (keyed (H := Example.runtime) ∅ [Example.A1]) None.

Definition answer : Attempt := mkAttempt (Some 8) (Some (65002, 30 * second))%Z.

Definition refused : Attempt := mkAttempt None None.

Definition wrong_peer : Attempt := mkAttempt (Some 8) (Some (64999, 30 * second))%Z.

(** A configured hold time of ten seconds. *)
Definition ten : Session :=
  mkSession 65001 Example.gw "192.0.2.1:179" 65002 (10 * second) false false
    None 0 ∅ None.

(** A hold time of two nanoseconds, just published. *)
Definition tiny : Session :=
  mkSession 65001 Example.gw "192.0.2.1:179" 65002 2 true false None 2 ∅ None.

(** [A1] with another local preference. *)
Definition A1lp : Advertisement :=
  mkAdv (Example.net24 10 1 0) Example.gw 300 (Some [100%Z]).

Definition once : Round := mkRound [] answer [] [].

Definition unreachable : list Round :=
  [mkRound [] refused [] []; mkRound [EvSet [Example.A1]] refused [] []].

(** Two messages of the peer: a KEEPALIVE and an UPDATE of three bytes. *)
Definition heard : list (Z * list Z) := [(4, []); (2, [1; 2; 3])]%Z.

Definition conf_file : string := "/etc/frr/frr.conf".

Definition healthy : Frr.Shell :=
  Frr.mkShell []
    [("hostname r1", None); ("router bgp 65000", None); ("neighbors", None); ("peers", None)].

Definition broken : Frr.Shell :=
  Frr.mkShell [] [("hostname r1", None); ("", Some Frr.ExecError)].

End Scenario.

(** ** Facts about the values *)

Lemma DeepEqual_eq (x y : slice Z) : DeepEqual x y = true <-> x = y.
Proof.
  destruct x as [a|], y as [b|]; simpl; try (split; congruence).
  rewrite andb_true_iff, Nat.eqb_eq. split.
  - intros [Hlen Hall]. f_equal. revert b Hlen Hall.
    induction a as [|x a IH]; intros [|y b] Hlen Hall; simpl in *; try done.
    apply andb_true_iff in Hall as [Hxy Hall]. apply Z.eqb_eq in Hxy.
    f_equal; [done | apply IH; [lia | done]].
  - intros [= <-]. split; [done |].
    induction a as [|x a IH]; simpl; [done |].
    by rewrite Z.eqb_refl.
Qed.

Lemma DeepEqual_elems (x y : slice Z) : DeepEqual x y = true -> elems x = elems y.
Proof. by intros ->%DeepEqual_eq. Qed.

Lemma Equal_refl (ip : list Z) : Net.Equal ip ip = true.
Proof.
  unfold Net.Equal. rewrite Nat.eqb_refl. unfold Net.bytesEqual.
  by apply bool_decide_eq_true.
Qed.

(** ** Facts about the methods *)

Section Facts.
Context `{GoRuntime}.

Lemma write_wire c m w :
  wire (write c m w).1 = wire w ++ (if (write c m w).2 then [(c, m)] else []).
Proof.
  unfold write. destruct (script w) as [|[] sc]; simpl; try done.
  by rewrite app_nil_r.
Qed.

Lemma write_closedConns c m w : closedConns (write c m w).1 = closedConns w.
Proof. unfold write. by destruct (script w) as [|[] sc]. Qed.

Lemma write_ranges c m w : ranges (write c m w).1 = ranges w.
Proof. unfold write. by destruct (script w) as [|[] sc]. Qed.

Lemma write_quiet c m w : script w = [] -> (write c m w).2 = true /\ script (write c m w).1 = [].
Proof. unfold write. by intros ->. Qed.

Lemma to_send_cons skip c adv l :
  to_send skip ((c, adv) :: l)
  = if skip c adv then to_send skip l else (c, adv) :: to_send skip l.
Proof.
  unfold to_send. rewrite filter_cons. simpl.
  destruct (skip c adv); by case_decide.
Qed.

Lemma send_each_spec cn a skip l w :
  closedConns (send_each cn a skip l w).1 = closedConns w
  /\ ranges (send_each cn a skip l w).1 = ranges w
  /\ exists sent rest,
       to_send skip l = sent ++ rest
       /\ wire (send_each cn a skip l w).1 = wire w ++ updates cn a sent
       /\ ((send_each cn a skip l w).2 = None -> rest = [])
       /\ (forall c, (send_each cn a skip l w).2 = Some c -> rest <> []).
Proof.
  revert w. induction l as [|[c adv] l IH]; intros w; simpl.
  - repeat split; try done. exists [], []. repeat split; try done.
    by rewrite app_nil_r.
  - rewrite to_send_cons. destruct (skip c adv) eqn:Hskip; [apply IH |].
    pose proof (write_wire cn (MUpdate a adv) w) as Hw.
    pose proof (write_closedConns cn (MUpdate a adv) w) as Hc.
    pose proof (write_ranges cn (MUpdate a adv) w) as Hr.
    destruct (write cn (MUpdate a adv) w) as [w1 [|]]; simpl in *.
    + destruct (IH w1) as (Hc1 & Hr1 & sent & rest & Hs & Hwire & Hn & Hsome).
      repeat split; [congruence | congruence |].
      exists ((c, adv) :: sent), rest. repeat split; try done.
      * by rewrite Hs.
      * rewrite Hwire, Hw. unfold updates. simpl. by rewrite <- app_assoc.
    + repeat split; try done.
      exists [], ((c, adv) :: to_send skip l).
      repeat split; try done; by rewrite Hw.
Qed.

Lemma send_each_quiet cn a skip l w :
  script w = [] ->
  (send_each cn a skip l w).2 = None /\ script (send_each cn a skip l w).1 = [].
Proof.
  revert w. induction l as [|[c adv] l IH]; intros w Hw; simpl; [done |].
  destruct (skip c adv); [by apply IH |].
  destruct (write_quiet cn (MUpdate a adv) w Hw) as [Hok Hsc].
  destruct (write cn (MUpdate a adv) w) as [w1 ok]; simpl in *. subst ok.
  by apply IH.
Qed.

(** [abort], field by field. *)
Lemma abort_session s w :
  conn (abort s w).1 = None
  /\ new (abort s w).1 = None
  /\ advertised (abort s w).1 = default (advertised s) (new s)
  /\ closed (abort s w).1 = closed s
  /\ asn (abort s w).1 = asn s /\ peerASN (abort s w).1 = peerASN s
  /\ holdTime (abort s w).1 = holdTime s
  /\ actualHoldTime (abort s w).1 = actualHoldTime s.
Proof.
  unfold abort. destruct s as [? ? ? ? ? ? ? [c|] ? ? [n|]]; simpl; done.
Qed.

Lemma abort_world s w :
  wire (abort s w).2 = wire w
  /\ script (abort s w).2 = script w
  /\ ranges (abort s w).2 = ranges w
  /\ closedConns (abort s w).2
     = match conn s with Some c => c :: closedConns w | None => closedConns w end.
Proof.
  unfold abort. destruct s as [? ? ? ? ? ? ? [c|] ? ? [n|]]; simpl; done.
Qed.

Lemma withdrawals_filter l n :
  withdrawals l n = (fun p => Prefix p.2) <$> filter (fun p => n !! p.1 = None) l.
Proof.
  induction l as [|[c adv] l IH]; simpl; [done |].
  rewrite filter_cons. simpl. destruct (n !! c) eqn:Hn.
  - rewrite decide_False by done. done.
  - rewrite decide_True by done. simpl. by rewrite IH.
Qed.

Lemma abort_session_indep s w w' : (abort s w).1 = (abort s w').1.
Proof. unfold abort. destruct (conn s); simpl; by destruct (new s). Qed.

(** The three ways a diff ends: committed, a failed UPDATE, a failed
    WITHDRAW.  [ln] and [la] are the orders of its two [range] loops. *)
Lemma diff_cases a cn n s w :
  let ln := range (ranges w) n in
  let la := range (S (ranges w)) (advertised s) in
  let wdr := withdrawals la n in
  let todo := to_send (up_to_date (advertised s)) ln in
  let r := diff a cn n s w in
  (r.2 = None
   /\ r.1.1 = promote s n
   /\ closedConns r.1.2 = closedConns w
   /\ wire r.1.2 = wire w ++ updates cn a todo
                   ++ (if decide (wdr = []) then [] else [(cn, MWithdraw wdr)]))
  \/ (exists c sent rest,
        r.2 = Some (errSendUpdate c)
        /\ todo = sent ++ rest /\ rest <> []
        /\ r.1.1 = (abort s w).1
        /\ closedConns r.1.2 = closedConns (abort s w).2
        /\ wire r.1.2 = wire w ++ updates cn a sent)
  \/ (r.2 = Some (errSendWithdraw wdr)
      /\ wdr <> []
      /\ r.1.1 = (abort s w).1
      /\ closedConns r.1.2 = closedConns (abort s w).2
      /\ wire r.1.2 = wire w ++ updates cn a todo).
Proof.
  intros ln la wdr todo r. subst r. unfold diff, next_range.
  set (w0 := mkWorld (wire w) (closedConns w) (script w) (S (ranges w))).
  destruct (send_each_spec cn a (up_to_date (advertised s)) ln w0)
    as (Hc & Hr & sent & rest & Htodo & Hwire & Hnone & Hsome).
  fold ln. destruct (send_each cn a (up_to_date (advertised s)) ln w0) as [w1 [c|]];
    simpl in *.
  - right; left. exists c, sent, rest.
    pose proof (abort_world s w1) as (Haw & _ & _ & Hac).
    pose proof (abort_world s w) as (_ & _ & _ & Hac').
    rewrite (surjective_pairing (abort s w1)). simpl.
    repeat split; try done.
    + by eapply Hsome.
    + apply abort_session_indep.
    + rewrite Hac, Hac', Hc. done.
    + by rewrite Haw, Hwire.
  - rewrite (Hnone eq_refl), app_nil_r in Htodo. subst sent.
    rewrite Hr. simpl. fold la. fold wdr.
    destruct wdr as [|p wdr'] eqn:Hwdr; simpl.
    + left. repeat split; try done. simpl. by rewrite app_nil_r.
    + set (w2 := mkWorld (wire w1) (closedConns w1) (script w1) (S (S (ranges w)))).
      pose proof (write_wire cn (MWithdraw (p :: wdr')) w2) as Hw.
      pose proof (write_closedConns cn (MWithdraw (p :: wdr')) w2) as Hcc.
      destruct (write cn (MWithdraw (p :: wdr')) w2) as [w3 [|]]; simpl in *.
      * left. repeat split; try done; [congruence |].
        rewrite Hw, Hwire. by rewrite <- app_assoc.
      * right; right.
        pose proof (abort_world s w3) as (Haw & _ & _ & Hac).
        pose proof (abort_world s w) as (_ & _ & _ & Hac').
        rewrite (surjective_pairing (abort s w3)). simpl.
        repeat split; try done.
        -- apply abort_session_indep.
        -- rewrite Hac, Hac', Hcc, Hc. done.
        -- by rewrite Haw, Hw, app_nil_r, Hwire.
Qed.

End Facts.

(** ** The control surface: [Set] *)

Section SetFacts.
Context `{GoRuntime}.

Lemma valid_not_invalid adv : valid adv <-> ~ invalid adv.
Proof.
  unfold valid, invalid. split.
  - intros ([? H1] & [? H2] & H3) [?|[?|?]]; [congruence | congruence | lia].
  - intros Hn. repeat split.
    + destruct (Net.To4 (Net.IPNet_IP (Prefix adv))); [by eexists | tauto].
    + destruct (Net.To4 (NextHop adv)); [by eexists | tauto].
    + destruct (decide (len (Communities adv) <= 63)); [done | lia].
Qed.

Lemma Set_loop_spec advs m :
  (Forall valid advs /\ Set_loop advs m = inr (keyed m advs))
  \/ (Exists invalid advs /\ exists e, Set_loop advs m = inl e).
Proof.
  revert m. induction advs as [|adv advs IH]; intros m; simpl.
  - left. by split.
  - destruct (Net.To4 (Net.IPNet_IP (Prefix adv))) as [p4|] eqn:Hp;
      [| right; split; [left; by left | by eexists]].
    destruct (Net.To4 (NextHop adv)) as [n4|] eqn:Hn;
      [| right; split; [left; right; by left | by eexists]].
    destruct (63 <? len (Communities adv)) eqn:Hc.
    + apply Nat.ltb_lt in Hc. right. split; [left; right; by right | by eexists].
    + apply Nat.ltb_ge in Hc.
      destruct (IH (<[IPNet_String (Prefix adv) := adv]> m)) as [[Hv He]|[Hi He]].
      * left. split; [| done]. constructor; [| done].
        unfold valid. rewrite Hp, Hn. by repeat split; try eexists.
      * right. split; [by right | done].
Qed.

Lemma Set_ok s advs :
  Forall valid advs -> Session_Set s advs = (with_new s (Some (keyed ∅ advs)), None).
Proof.
  intros Hv. unfold Session_Set.
  destruct (Set_loop_spec advs ∅) as [[_ ->]|[Hi _]]; [done |].
  exfalso. apply Exists_exists in Hi as (adv & Hin & Hbad).
  rewrite Forall_forall in Hv. by apply (valid_not_invalid adv); auto.
Qed.

Lemma Set_ok_inv s advs s' :
  Session_Set s advs = (s', None) -> Forall valid advs.
Proof.
  unfold Session_Set.
  destruct (Set_loop_spec advs ∅) as [[Hv _]|[_ [e ->]]]; [done | by intros [=]].
Qed.

Lemma keyed_lookup advs m c adv :
  keyed m advs !! c = Some adv -> adv ∈ advs \/ m !! c = Some adv.
Proof.
  revert m. induction advs as [|x advs IH]; intros m; simpl; [by right |].
  intros [Hin|Hm]%IH.
  - left. by right.
  - destruct (decide (IPNet_String (Prefix x) = c)) as [Heq|Hne].
    + subst c. rewrite lookup_insert_eq in Hm. injection Hm as ->. left. by left.
    + rewrite lookup_insert_ne in Hm by done. by right.
Qed.

Lemma keyed_keep advs m c :
  Forall (fun x => IPNet_String (Prefix x) <> c) advs -> keyed m advs !! c = m !! c.
Proof.
  revert m. induction advs as [|x advs IH]; intros m Hall; simpl; [done |].
  apply Forall_cons in Hall as [Hx Hrest].
  rewrite IH by done. by apply lookup_insert_ne.
Qed.

Lemma keyed_app m l1 l2 : keyed m (l1 ++ l2) = keyed (keyed m l1) l2.
Proof. unfold keyed. apply foldl_app. Qed.

(** C8. [Set] returns an error exactly when one of the advertisements it is
    given has a prefix that is not IPv4, a next hop that is not IPv4, or
    more than 63 communities; a call that returns an error leaves the
    session, and so the pending set, as they were, whatever came before
    the offending advertisement in the argument list. *)
Theorem Set_error_iff_invalid (s : Session) (advs : list Advertisement) :
  (is_Some (Session_Set s advs).2 <-> Exists invalid advs)
  /\ (is_Some (Session_Set s advs).2 -> (Session_Set s advs).1 = s)
  /\ (forall good bad rest, invalid bad ->
        (Session_Set s (good ++ bad :: rest)).1 = s
        /\ is_Some (Session_Set s (good ++ bad :: rest)).2).
Proof.
  assert (Herr : forall l, Exists invalid l ->
            (Session_Set s l).1 = s /\ is_Some (Session_Set s l).2).
  { intros l Hi. unfold Session_Set.
    destruct (Set_loop_spec l ∅) as [[Hv _]|[_ [e ->]]]; [| by split; [| eexists]].
    exfalso. apply Exists_exists in Hi as (adv & Hin & Hbad).
    rewrite Forall_forall in Hv. by apply (valid_not_invalid adv); auto. }
  split; [| split].
  - split; [| by intros Hi; apply Herr].
    unfold Session_Set.
    destruct (Set_loop_spec advs ∅) as [[_ ->]|[Hi _]]; [| done].
    simpl. by intros [? [=]].
  - unfold Session_Set. destruct (Set_loop advs ∅); simpl; [done |].
    by intros [? [=]].
  - intros good bad rest Hbad. apply Herr.
    apply Exists_app. right. by left.
Qed.

End SetFacts.

(** ** What a pass of the writer puts on the wire *)

Lemma emitted_app w w' ext : wire w' = wire w ++ ext -> emitted w w' = ext.
Proof. unfold emitted. intros ->. by rewrite drop_app_length. Qed.

Lemma emitted_refl w w' : wire w' = wire w -> emitted w w' = [].
Proof. intros Hw. apply emitted_app. by rewrite app_nil_r. Qed.

Section PassFacts.
Context `{GoRuntime}.

Lemma filter_updates_withdraw cn a l : filter is_withdraw (updates cn a l) = [].
Proof.
  induction l as [|p l IH]; [done |].
  unfold updates in *. rewrite fmap_cons, filter_cons.
  rewrite decide_False; [done |]. unfold is_withdraw. simpl. tauto.
Qed.

Lemma filter_updates_update cn a l : filter is_update (updates cn a l) = updates cn a l.
Proof.
  induction l as [|p l IH]; [done |].
  unfold updates in *. rewrite fmap_cons, filter_cons.
  rewrite decide_True; [by rewrite IH |]. by unfold is_update.
Qed.

Lemma elem_of_updates cn a l m :
  m ∈ updates cn a l <-> exists c adv, (c, adv) ∈ l /\ m = (cn, MUpdate a adv).
Proof.
  unfold updates. rewrite list_elem_of_fmap. split.
  - intros ([c adv] & -> & Hin). by exists c, adv.
  - intros (c & adv & Hin & ->). by exists (c, adv).
Qed.

Lemma elem_of_to_send skip l c adv :
  (c, adv) ∈ to_send skip l <-> (c, adv) ∈ l /\ skip c adv = false.
Proof. unfold to_send. rewrite list_elem_of_filter. simpl. tauto. Qed.

Lemma elem_of_range i (m : gmap string Advertisement) c adv :
  (c, adv) ∈ range i m <-> m !! c = Some adv.
Proof. rewrite (range_perm i m). apply elem_of_map_to_list. Qed.

Lemma range_empty i : range i ∅ = [].
Proof.
  apply Permutation_nil. rewrite (range_perm i ∅). by rewrite map_to_list_empty.
Qed.

(** Every UPDATE of a diff is written on the live connection with the
    ASN the writer computed, and is for an entry of the pending set that
    the test of line 106 did not pass. *)
Lemma diff_emitted_update a cn n s w m :
  m ∈ emitted w (diff a cn n s w).1.2 -> is_update m ->
  exists c adv, m = (cn, MUpdate a adv)
                /\ n !! c = Some adv
                /\ up_to_date (advertised s) c adv = false.
Proof.
  intros Hin Hup.
  assert (Hgo : forall l, m ∈ updates cn a l ->
            (forall c adv, (c, adv) ∈ l ->
               (c, adv) ∈ to_send (up_to_date (advertised s)) (range (ranges w) n)) ->
            exists c adv, m = (cn, MUpdate a adv) /\ n !! c = Some adv
                          /\ up_to_date (advertised s) c adv = false).
  { intros l (c & adv & Hl & ->)%elem_of_updates Hsub.
    apply Hsub, elem_of_to_send in Hl as [Hl Hskip].
    apply elem_of_range in Hl. by exists c, adv. }
  destruct (diff_cases a cn n s w)
    as [(_ & _ & _ & Hw)|[(c & sent & rest & _ & Htodo & _ & _ & _ & Hw)|(_ & _ & _ & _ & Hw)]];
    apply emitted_app in Hw; rewrite Hw in Hin.
  - apply elem_of_app in Hin as [Hin|Hin]; [by eapply Hgo |].
    case_decide; [by apply elem_of_nil in Hin |].
    apply list_elem_of_singleton in Hin. subst m. by unfold is_update in Hup.
  - eapply Hgo; [done |]. intros c' adv' Hs. rewrite Htodo.
    apply elem_of_app. by left.
  - by eapply Hgo.
Qed.

(** The pass made on entry writes UPDATEs only, one for each entry of the
    promoted set it gets to. *)
Lemma first_pass_emitted s w m :
  m ∈ emitted w (first_pass s w).1.2 ->
  exists cn c adv, conn s = Some cn
                   /\ m = (cn, MUpdate (wire_asn s) adv)
                   /\ default (advertised s) (new s) !! c = Some adv.
Proof.
  unfold first_pass, next_range.
  set (s1 := match new s with Some n => promote s n | None => s end).
  assert (Hadv : advertised s1 = default (advertised s) (new s))
    by (subst s1; by destruct (new s)).
  assert (Hconn : conn s1 = conn s) by (subst s1; by destruct (new s)).
  rewrite Hconn. destruct (conn s) as [cn|].
  - set (w0 := mkWorld _ _ _ _).
    destruct (send_each_spec cn (wire_asn s) (fun _ _ => false) (range (ranges w) (advertised s1)) w0)
      as (_ & _ & sent & rest & Htodo & Hwire & _ & _).
    destruct (send_each cn (wire_asn s) _ _ w0) as [w1 [c|]]; simpl in *.
    + pose proof (abort_world s1 w1) as (Haw & _).
      destruct (abort s1 w1) as [s' w']; simpl in *.
      rewrite <- Haw in Hwire. apply emitted_app in Hwire. rewrite Hwire.
      intros (c' & adv & Hin & ->)%elem_of_updates.
      exists cn, c', adv. repeat split; try done.
      rewrite <- Hadv. apply (elem_of_range (ranges w)).
      eapply elem_of_to_send. rewrite Htodo. apply elem_of_app. by left.
    + apply emitted_app in Hwire. rewrite Hwire.
      intros (c' & adv & Hin & ->)%elem_of_updates.
      exists cn, c', adv. repeat split; try done.
      rewrite <- Hadv. apply (elem_of_range (ranges w)).
      eapply elem_of_to_send. rewrite Htodo. apply elem_of_app. by left.
  - destruct (range (ranges w) (advertised s1)); simpl;
      rewrite emitted_refl by done; by intros ?%elem_of_nil.
Qed.

End PassFacts.

(** ** Replacement and duplicates in [Set] *)

Section SetClaims.
Context `{GoRuntime}.

(** C10. When every advertisement of a call of [Set] is valid and several
    of them have the same prefix text, the call succeeds and the pending
    set maps that prefix to the last of them in argument order; the
    earlier ones leave no trace. *)
Theorem Set_duplicate_last_wins (s : Session) (l1 l2 : list Advertisement) (adv : Advertisement) :
  Forall valid (l1 ++ adv :: l2) ->
  Forall (fun x => IPNet_String (Prefix x) <> IPNet_String (Prefix adv)) l2 ->
  (Session_Set s (l1 ++ adv :: l2)).2 = None
  /\ exists n, new (Session_Set s (l1 ++ adv :: l2)).1 = Some n
               /\ n !! IPNet_String (Prefix adv) = Some adv.
Proof.
  intros Hv Hlast. rewrite (Set_ok s _ Hv). simpl. split; [done |].
  eexists. split; [done |].
  rewrite keyed_app. simpl. rewrite keyed_keep by done.
  apply lookup_insert_eq.
Qed.

(** C5. [Set] replaces the pending set as a whole.  After [Set(A)] and
    then [Set(B)], both successful and with no diff in between, the
    pending set is the map built from [B] keyed by prefix text, and the
    session is the one [Set(B)] alone would have left: nothing of [A]
    remains.  The next diff, and the pass made on entry after a reconnect,
    send UPDATEs for advertisements of [B] only. *)
Theorem Set_supersedes_pending (s s1 s2 : Session) (A B : list Advertisement) :
  Session_Set s A = (s1, None) ->
  Session_Set s1 B = (s2, None) ->
  new s2 = Some (keyed ∅ B)
  /\ Session_Set s B = (s2, None)
  /\ (forall a cn w m,
        m ∈ emitted w (diff a cn (keyed ∅ B) s2 w).1.2 -> is_update m ->
        exists adv, m = (cn, MUpdate a adv) /\ adv ∈ B)
  /\ (forall w m,
        m ∈ emitted w (first_pass s2 w).1.2 ->
        exists cn adv, m = (cn, MUpdate (wire_asn s2) adv) /\ adv ∈ B).
Proof.
  intros HA HB.
  pose proof (Set_ok_inv _ _ _ HA) as HvA. pose proof (Set_ok_inv _ _ _ HB) as HvB.
  rewrite (Set_ok s A HvA) in HA. injection HA as <-.
  rewrite (Set_ok _ B HvB) in HB. injection HB as <-.
  assert (Hin : forall c adv, keyed ∅ B !! c = Some adv -> adv ∈ B).
  { intros c adv [?|Hemp]%keyed_lookup; [done |]. by rewrite lookup_empty in Hemp. }
  repeat split.
  - by rewrite (Set_ok s B HvB).
  - intros a cn w m Hm Hup.
    destruct (diff_emitted_update a cn _ _ w m Hm Hup) as (c & adv & -> & Hl & _).
    exists adv. split; [done | by eapply Hin].
  - intros w m Hm.
    destruct (first_pass_emitted _ w m Hm) as (cn & c & adv & _ & -> & Hl).
    exists cn, adv. split; [done |]. simpl in Hl. by eapply Hin.
Qed.

End SetClaims.

(** Scenario 5 of the spec: a valid advertisement followed by one with 64
    communities is refused, and the pending set of before stays. *)
Lemma Set_error_iff_invalid_witness :
  let s := Example.wanting [] [Example.A1] in
  let r := Session_Set (H := Example.runtime) s [Example.A2; Example.A64] in
  is_Some r.2 /\ r.1 = s.
Proof.
  assert (He : is_Some (Session_Set (H := Example.runtime)
                          (Example.wanting [] [Example.A1]) [Example.A2; Example.A64]).2)
    by (vm_compute; eexists; reflexivity).
  split; [exact He |].
  exact (proj1 (proj2 (Set_error_iff_invalid (H := Example.runtime)
                         (Example.wanting [] [Example.A1]) [Example.A2; Example.A64])) He).
Defined.

(** Two advertisements for 10.1.0.0/24: the later one is the pending one. *)
Lemma Set_duplicate_last_wins_witness :
  let r := Session_Set (H := Example.runtime) Example.s0
             ([Example.A1] ++ Example.A1' :: [Example.A2]) in
  r.2 = None
  /\ exists n, new r.1 = Some n /\ n !! "10.1.0.0/24" = Some Example.A1'.
Proof.
  apply (Set_duplicate_last_wins (H := Example.runtime) Example.s0
           [Example.A1] [Example.A2] Example.A1').
  - repeat constructor; vm_compute; try (eexists; reflexivity); lia.
  - repeat constructor. vm_compute. discriminate.
Defined.

(** [Set(A1)] then [Set(A2)]: only A2 is pending. *)
Lemma Set_supersedes_pending_witness :
  let s1 := (Session_Set (H := Example.runtime) Example.s0 [Example.A1]).1 in
  let s2 := (Session_Set (H := Example.runtime) s1 [Example.A2]).1 in
  new s2 = Some (keyed (H := Example.runtime) ∅ [Example.A2])
  /\ Session_Set (H := Example.runtime) Example.s0 [Example.A2] = (s2, None).
Proof.
  intros s1 s2.
  destruct (Set_supersedes_pending (H := Example.runtime) Example.s0 s1 s2
              [Example.A1] [Example.A2]) as (Hn & Hs & _).
  - vm_compute. reflexivity.
  - vm_compute. reflexivity.
  - split; [exact Hn | exact Hs].
Defined.

(** ** The diff of the writer *)

Section DiffClaims.
Context `{GoRuntime}.

Lemma withdrawals_range i n (advd : gmap string Advertisement) :
  withdrawals (range i advd) n
  ≡ₚ (fun p => Prefix p.2) <$> filter (fun p => n !! p.1 = None) (map_to_list advd).
Proof. rewrite withdrawals_filter. by rewrite (range_perm i advd). Qed.

Lemma diff_emitted_withdraw a cn n s w :
  let wdr := withdrawals (range (S (ranges w)) (advertised s)) n in
  let r := diff a cn n s w in
  filter is_withdraw (emitted w r.1.2)
  = if decide (wdr <> [] /\ r.2 = None) then [(cn, MWithdraw wdr)] else [].
Proof.
  intros wdr r. subst r.
  destruct (diff_cases a cn n s w)
    as [(Hr & _ & _ & Hw)|[(c & sent & rest & Hr & _ & _ & _ & _ & Hw)|(Hr & _ & _ & _ & Hw)]];
    apply emitted_app in Hw; rewrite Hw, Hr.
  - rewrite filter_app, filter_updates_withdraw. fold wdr. simpl.
    destruct (decide (wdr = [])) as [He|Hne].
    + rewrite decide_False by tauto. done.
    + rewrite decide_True by done. rewrite filter_cons, decide_True; done.
  - rewrite filter_updates_withdraw. rewrite decide_False; [done |]. by intros [_ ?].
  - rewrite filter_updates_withdraw. rewrite decide_False; [done |]. by intros [_ ?].
Qed.

(** C2. In a diff, the withdrawn prefixes are those of the entries of
    [advertised] whose key is not in the pending set, each once.  If there
    is none, no WITHDRAW is written.  If there are some and the pass is not
    cut short by a failed write, one WITHDRAW is written and it carries all
    of them.  No pass writes more than this one WITHDRAW. *)
Theorem diff_withdraws_missing_keys
  (a : Z) (cn : Conn) (n : gmap string Advertisement) (s : Session) (w : World) :
  let wdr := withdrawals (range (S (ranges w)) (advertised s)) n in
  let r := diff a cn n s w in
  wdr ≡ₚ (fun p => Prefix p.2) <$> filter (fun p => n !! p.1 = None) (map_to_list (advertised s))
  /\ (forall p, p ∈ wdr <->
        exists c adv, advertised s !! c = Some adv /\ n !! c = None /\ Prefix adv = p)
  /\ (wdr = [] -> filter is_withdraw (emitted w r.1.2) = [])
  /\ (wdr <> [] -> r.2 = None ->
        filter is_withdraw (emitted w r.1.2) = [(cn, MWithdraw wdr)])
  /\ (filter is_withdraw (emitted w r.1.2) = []
      \/ filter is_withdraw (emitted w r.1.2) = [(cn, MWithdraw wdr)]).
Proof.
  intros wdr r. pose proof (diff_emitted_withdraw a cn n s w) as Hf.
  fold wdr r in Hf. simpl in Hf.
  split; [apply withdrawals_range |]. split; [| rewrite Hf; repeat split].
  - intros p. subst wdr. rewrite withdrawals_range, list_elem_of_fmap. split.
    + intros ([c adv] & -> & [Hn Hin]%list_elem_of_filter). simpl in *.
      apply elem_of_map_to_list in Hin. by exists c, adv.
    + intros (c & adv & Ha & Hn & <-). exists (c, adv). split; [done |].
      apply list_elem_of_filter. split; [done | by apply elem_of_map_to_list].
  - intros He. rewrite decide_False; [done |]. by intros [? _].
  - intros Hne Hr. by rewrite decide_True.
  - case_decide; [by right | by left].
Qed.

Lemma write_script c m w :
  script (write c m w).1 = tail (script w)
  /\ (write c m w).2 = match script w with false :: _ => false | _ => true end.
Proof. unfold write. by destruct (script w) as [|[] sc]. Qed.

Lemma write_fails_cons k b w w' :
  script w = b :: script w' ->
  write_fails (S k) w <-> b = false \/ write_fails k w'.
Proof.
  intros Hs. unfold write_fails. rewrite Hs. split.
  - intros ([|i] & Hlt & Hl); simpl in Hl; [left; congruence |].
    right. exists i. split; [lia | done].
  - intros [->|(i & Hlt & Hl)]; [exists 0; split; [lia | done] |].
    exists (S i). split; [lia | done].
Qed.

Lemma write_fails_nil k w : script w = [] -> ~ write_fails k w.
Proof. intros Hs (i & _ & Hl). by rewrite Hs in Hl. Qed.

(** The loop fails exactly when one of the writes it comes to fails, and
    otherwise uses up one outcome for each. *)
Lemma send_each_script cn a skip l w :
  (write_fails (length (to_send skip l)) w -> is_Some (send_each cn a skip l w).2)
  /\ (~ write_fails (length (to_send skip l)) w ->
      (send_each cn a skip l w).2 = None
      /\ script (send_each cn a skip l w).1
         = drop (length (to_send skip l)) (script w)).
Proof.
  revert w. induction l as [|[c adv] l IH]; intros w.
  - simpl. split; [by intros (i & Hlt & _); lia | done].
  - rewrite to_send_cons. simpl. destruct (skip c adv); [apply IH |].
    destruct (write_script cn (MUpdate a adv) w) as [Hsc Hok].
    destruct (write cn (MUpdate a adv) w) as [w1 ok]. simpl in Hsc, Hok.
    destruct (script w) as [|b sc] eqn:Hw.
    + subst ok. simpl in Hsc. destruct (IH w1) as [_ IH2].
      split; [intros Hf; by apply write_fails_nil in Hf |].
      intros _. destruct IH2 as [-> ->]; [by apply write_fails_nil |].
      by rewrite Hsc, !drop_nil.
    + simpl in Hsc. pose proof (write_fails_cons (length (to_send skip l)) b w w1) as Hc.
      rewrite Hw, Hsc in Hc. specialize (Hc eq_refl).
      destruct b; subst ok; simpl.
      * destruct (IH w1) as [IH1 IH2]. split.
        -- intros [?|Hf]%Hc; [done | by apply IH1].
        -- intros Hn. destruct IH2 as [-> ->]; [intros Hf; apply Hn, Hc; by right |].
           by rewrite Hsc.
      * split; [by eexists |]. intros Hn. exfalso. apply Hn, Hc. by left.
Qed.

Lemma write_fails_le k k' w : k <= k' -> write_fails k w -> write_fails k' w.
Proof. intros Hle (i & Hlt & Hl). exists i. split; [lia | done]. Qed.

Lemma write_fails_after k w w' :
  ~ write_fails k w -> script w' = drop k (script w) ->
  write_fails (k + 1) w <-> script w' !! 0 = Some false.
Proof.
  intros Hn Hs. rewrite Hs, lookup_drop, Nat.add_0_r. split.
  - intros (i & Hlt & Hl). destruct (decide (i = k)) as [->|Hne]; [done |].
    exfalso. apply Hn. exists i. split; [lia | done].
  - intros Hl. exists k. split; [lia | done].
Qed.

Lemma classic_fails k w : write_fails k w \/ ~ write_fails k w.
Proof.
  induction k as [|k [IH|IH]].
  - right. intros (i & Hlt & _). lia.
  - left. eapply write_fails_le; [| done]. lia.
  - destruct (decide (script w !! k = Some false)) as [Hl|Hl].
    + left. exists k. split; [lia | done].
    + right. intros (i & Hlt & Hi). destruct (decide (i = k)) as [->|Hne]; [done |].
      apply IH. exists i. split; [lia | done].
Qed.

(** A diff returns an error exactly when one of its writes fails. *)
Lemma diff_fails_iff a cn n s w :
  write_fails (diff_writes n s w) w <-> is_Some (diff a cn n s w).2.
Proof.
  unfold diff_writes, diff, next_range.
  set (todo := to_send (up_to_date (advertised s)) (range (ranges w) n)).
  set (w0 := mkWorld (wire w) (closedConns w) (script w) (S (ranges w))).
  destruct (send_each_script cn a (up_to_date (advertised s)) (range (ranges w) n) w0)
    as [Hfail Hpass]. fold todo in Hfail, Hpass.
  destruct (send_each_spec cn a (up_to_date (advertised s)) (range (ranges w) n) w0)
    as (_ & Hr & _).
  destruct (send_each cn a _ _ w0) as [w1 [c|]] eqn:Hse; simpl in *.
  - destruct (abort s w1). simpl. split; [by eexists |]. intros _.
    destruct (classic_fails (length todo) w) as [Hf|Hn];
      [eapply write_fails_le; [| exact Hf]; lia |].
    exfalso. by destruct (Hpass Hn) as [[=] _].
  - assert (Hn : ~ write_fails (length todo) w).
    { intros Hf. by destruct (Hfail Hf) as [? [=]]. }
    destruct (Hpass Hn) as [_ Hsc].
    rewrite Hr. simpl.
    destruct (withdrawals (range (S (ranges w)) (advertised s)) n) as [|p wdr] eqn:Hwdr.
    + rewrite decide_True by done. rewrite Nat.add_0_r. simpl.
      split; [done | by intros [? [=]]].
    + rewrite decide_False by done. simpl.
      set (w2 := mkWorld (wire w1) (closedConns w1) (script w1) (S (S (ranges w)))).
      rewrite (write_fails_after (length todo) w w2 Hn Hsc).
      destruct (write_script cn (MWithdraw (p :: wdr)) w2) as [_ Hok].
      destruct (write cn (MWithdraw (p :: wdr)) w2) as [w3 ok]. simpl in Hok. subst ok.
      subst w2. simpl.
      destruct (script w1) as [|[] sc]; simpl.
      * split; [done | by intros [? [=]]].
      * split; [done | by intros [? [=]]].
      * destruct (abort s w3). simpl. split; [by eexists | done].
Qed.

Lemma diff_error_state a cn n s w e :
  conn s = Some cn -> new s = Some n -> (diff a cn n s w).2 = Some e ->
  conn (diff a cn n s w).1.1 = None
  /\ cn ∈ closedConns (diff a cn n s w).1.2
  /\ new (diff a cn n s w).1.1 = None
  /\ advertised (diff a cn n s w).1.1 = n.
Proof.
  intros Hc Hn He.
  pose proof (abort_session s w) as (Ac & An & Aa & _).
  pose proof (abort_world s w) as (_ & _ & _ & Acl).
  rewrite Hc in Acl. rewrite Hn in Aa. simpl in Aa.
  destruct (diff_cases a cn n s w)
    as [(Hr & _)|[(c & sent & rest & _ & _ & _ & Hs & Hcl & _)|(_ & _ & Hs & Hcl & _)]];
    [congruence | |]; rewrite Hs, Hcl, Acl; repeat split; try done; by left.
Qed.

(** The pass made on entry returns an error exactly when one of its
    writes fails. *)
Lemma first_pass_fails_iff s w cn :
  conn s = Some cn ->
  write_fails (entry_writes s w) w
  <-> exists e, (first_pass s w).2 = Some (Returned (Some e)).
Proof.
  intros Hc. unfold entry_writes, first_pass, next_range.
  set (s1 := match new s with Some n => promote s n | None => s end).
  assert (Hadv : advertised s1 = default (advertised s) (new s))
    by (subst s1; by destruct (new s)).
  assert (Hconn : conn s1 = Some cn) by (subst s1; by destruct (new s)).
  rewrite Hconn, Hadv. set (l := range _ _).
  set (w0 := mkWorld (wire w) (closedConns w) (script w) (S (ranges w))).
  assert (Hall : to_send (fun _ _ => false) l = l).
  { unfold to_send. clear. induction l as [|p l IH]; [done |].
    rewrite filter_cons, decide_True by done. by rewrite IH. }
  destruct (send_each_script cn (wire_asn s) (fun _ _ => false) l w0) as [Hfail Hpass].
  rewrite Hall in Hfail, Hpass.
  destruct (send_each cn (wire_asn s) _ l w0) as [w1 [c|]]; simpl in *.
  - destruct (abort s1 w1). simpl. split; [by eexists |]. intros _.
    destruct (classic_fails (length l) w) as [Hf|Hn]; [done |].
    by destruct (Hpass Hn) as [[=] _].
  - split; [| by intros [? [=]]]. intros Hf. by destruct (Hfail Hf) as [? [=]].
Qed.

Lemma first_pass_error_state s w e :
  (first_pass s w).2 = Some (Returned (Some e)) ->
  conn (first_pass s w).1.1 = None
  /\ (exists cn, conn s = Some cn /\ cn ∈ closedConns (first_pass s w).1.2)
  /\ new (first_pass s w).1.1 = None
  /\ advertised (first_pass s w).1.1 = default (advertised s) (new s).
Proof.
  unfold first_pass, next_range.
  set (s1 := match new s with Some n => promote s n | None => s end).
  assert (Hadv : advertised s1 = default (advertised s) (new s))
    by (subst s1; by destruct (new s)).
  assert (Hconn : conn s1 = conn s) by (subst s1; by destruct (new s)).
  assert (Hnew : new s1 = None) by (subst s1; by destruct (new s) eqn:E).
  destruct (conn s1) as [cn|] eqn:Hc.
  + set (w0 := mkWorld _ _ _ _).
    destruct (send_each_spec cn (wire_asn s) (fun _ _ => false)
                (range (ranges w) (advertised s1)) w0) as (Hcl & _).
    destruct (send_each cn (wire_asn s) _ _ w0) as [w1 [c|]]; simpl in *; [| done].
    intros _.
    pose proof (abort_session s1 w1) as (Ac & An & Aa & _).
    pose proof (abort_world s1 w1) as (_ & _ & _ & Acl).
    rewrite Hc in Acl. rewrite Hnew in Aa. simpl in Aa.
    destruct (abort s1 w1) as [s' w']; simpl in *.
    repeat split; try done; [| congruence].
    exists cn. split; [congruence |]. rewrite Acl. by left.
  + by destruct (range (ranges w) (advertised s1)).
Qed.

(** C3. A write of the writer that fails, be it an UPDATE or the WITHDRAW
    of a diff or an UPDATE of the pass made on entry, always ends the pass
    with an error, and a pass ends with an error for no other reason.  The
    pass then leaves the socket closed and [conn] absent.  In a diff the
    pending set, still present, becomes [advertised] as a whole and is
    pending no more: nothing partial is committed.  On entry the pending
    set was promoted before the first write. *)
Theorem send_error_aborts :
  (forall a cn n s w,
      conn s = Some cn -> new s = Some n ->
      (write_fails (diff_writes n s w) w <-> is_Some (diff a cn n s w).2)
      /\ (write_fails (diff_writes n s w) w ->
          conn (diff a cn n s w).1.1 = None
          /\ cn ∈ closedConns (diff a cn n s w).1.2
          /\ new (diff a cn n s w).1.1 = None
          /\ advertised (diff a cn n s w).1.1 = n)
      /\ (forall e, (diff a cn n s w).2 = Some e ->
          conn (diff a cn n s w).1.1 = None
          /\ cn ∈ closedConns (diff a cn n s w).1.2
          /\ new (diff a cn n s w).1.1 = None
          /\ advertised (diff a cn n s w).1.1 = n))
  /\ (forall s w cn,
      conn s = Some cn ->
      (write_fails (entry_writes s w) w
       <-> exists e, (first_pass s w).2 = Some (Returned (Some e)))
      /\ (write_fails (entry_writes s w) w ->
          conn (first_pass s w).1.1 = None
          /\ cn ∈ closedConns (first_pass s w).1.2
          /\ new (first_pass s w).1.1 = None
          /\ advertised (first_pass s w).1.1 = default (advertised s) (new s)))
  /\ (forall s w e,
      (first_pass s w).2 = Some (Returned (Some e)) ->
      conn (first_pass s w).1.1 = None
      /\ (exists cn, conn s = Some cn /\ cn ∈ closedConns (first_pass s w).1.2)
      /\ new (first_pass s w).1.1 = None
      /\ advertised (first_pass s w).1.1 = default (advertised s) (new s)).
Proof.
  split; [| split; [| exact first_pass_error_state]].
  - intros a cn n s w Hc Hn. split; [apply diff_fails_iff |].
    split; [| intros e; by apply diff_error_state].
    intros [e He]%(diff_fails_iff a cn). by eapply diff_error_state.
  - intros s w cn Hc. split; [exact (first_pass_fails_iff s w cn Hc) |].
    intros [e He]%(first_pass_fails_iff s w cn Hc).
    destruct (first_pass_error_state s w e He) as (Fc & (cn' & Hc' & Fcl) & Fn & Fa).
    repeat split; try done. congruence.
Qed.

End DiffClaims.

(** ** Absent and empty pending sets *)

Section AbsentOrEmpty.
Context `{GoRuntime}.

Lemma to_send_empty skip i : to_send skip (range i ∅) = [].
Proof. by rewrite range_empty. Qed.

Lemma withdrawals_all l : withdrawals l ∅ = (fun p => Prefix p.2) <$> l.
Proof.
  induction l as [|[c adv] l IH]; simpl; [done |].
  rewrite lookup_empty. by rewrite IH.
Qed.

(** One turn of the loop with a pending set on a live, open session is the
    diff, after which the writer goes back to wait. *)
Lemma steady_diff fuel a evs cn n s w :
  closed s = false -> conn s = Some cn -> new s = Some n ->
  steady (S fuel) a evs s w
  = match diff a cn n s w with
    | (s2, w2, Some e) => (s2, w2, Returned (Some e))
    | (s2, w2, None) => steady fuel a evs s2 w2
    end.
Proof.
  intros Hcl Hc Hn. simpl.
  assert (Hw : wait evs s w = (Some evs, s, w)).
  { destruct evs; simpl; by rewrite Hn. }
  rewrite Hw, Hcl, Hc, Hn. by destruct (diff a cn n s w) as [[s2 w2] [e|]].
Qed.

Lemma steady_absent fuel a s w :
  new s = None ->
  (steady (S fuel) a [] s w).1 = (s, w)
  /\ (is_Some (conn s) -> (steady (S fuel) a [] s w).2 = Parked).
Proof.
  intros Hn. simpl. rewrite Hn. destruct (conn s) as [cn|] eqn:Hc; simpl.
  - done.
  - rewrite Hc. split; [by destruct (closed s) | by intros [? [=]]].
Qed.

Lemma diff_empty a cn s w :
  new s = Some ∅ ->
  let wdr := withdrawals (range (S (ranges w)) (advertised s)) ∅ in
  let r := diff a cn ∅ s w in
  wdr ≡ₚ (fun p => Prefix p.2) <$> map_to_list (advertised s)
  /\ advertised r.1.1 = ∅
  /\ new r.1.1 = None
  /\ (r.2 = None ->
      emitted w r.1.2 = if decide (wdr = []) then [] else [(cn, MWithdraw wdr)])
  /\ (forall e, r.2 = Some e -> e = errSendWithdraw wdr /\ emitted w r.1.2 = []).
Proof.
  intros Hn wdr r. subst r.
  pose proof (abort_session s w) as (_ & An & Aa & _). rewrite Hn in Aa. simpl in Aa.
  split.
  { subst wdr. rewrite withdrawals_all. by rewrite (range_perm _ (advertised s)). }
  destruct (diff_cases a cn ∅ s w)
    as [(Hr & Hs & _ & Hw)|[(c & sent & rest & _ & Htodo & Hne & _)|(Hr & _ & Hs & _ & Hw)]].
  - rewrite Hs, Hr. repeat split; try done.
    intros _. rewrite to_send_empty in Hw. simpl in Hw. by apply emitted_app in Hw.
  - rewrite to_send_empty in Htodo. symmetry in Htodo.
    apply app_eq_nil in Htodo as [_ ->]. done.
  - rewrite Hs, Hr. repeat split; try done.
    + subst wdr. congruence.
    + rewrite to_send_empty in Hw. apply emitted_refl. by rewrite Hw, app_nil_r.
Qed.

(** A session on which [Set] was never called: the writer writes nothing. *)
Lemma sendUpdates_never_set fuel s w :
  advertised s = ∅ -> new s = None -> is_Some (conn s) ->
  (sendUpdates (S fuel) [] s w).1.1 = s
  /\ emitted w (sendUpdates (S fuel) [] s w).1.2 = []
  /\ (sendUpdates (S fuel) [] s w).2 = Parked.
Proof.
  intros Ha Hn [cn Hc]. unfold sendUpdates, first_pass, next_range.
  rewrite Hn, Hc, Ha, range_empty. simpl. rewrite Hn, Hc. simpl.
  repeat split. by apply emitted_refl.
Qed.

(** C4. An absent pending set and an empty one are different orders.
    With none pending the writer writes nothing and changes nothing, and on
    a live connection it stays in its wait.  With an empty set pending the
    diff writes no UPDATE and, when something is advertised, one WITHDRAW
    of every advertised prefix; whether that write succeeds or not,
    [advertised] is empty afterwards and nothing is pending.  [Set] with no
    argument makes the pending set present and empty, and a session on
    which [Set] was never called has nothing written by the writer. *)
Theorem absent_differs_from_empty :
  (forall fuel a s w,
      new s = None ->
      (steady (S fuel) a [] s w).1 = (s, w)
      /\ (is_Some (conn s) -> (steady (S fuel) a [] s w).2 = Parked))
  /\ (forall a cn s w,
      new s = Some ∅ ->
      let wdr := withdrawals (range (S (ranges w)) (advertised s)) ∅ in
      let r := diff a cn ∅ s w in
      wdr ≡ₚ (fun p => Prefix p.2) <$> map_to_list (advertised s)
      /\ advertised r.1.1 = ∅
      /\ new r.1.1 = None
      /\ (r.2 = None ->
          emitted w r.1.2 = if decide (wdr = []) then [] else [(cn, MWithdraw wdr)])
      /\ (forall e, r.2 = Some e -> e = errSendWithdraw wdr /\ emitted w r.1.2 = []))
  /\ (forall fuel a cn s w,
      closed s = false -> conn s = Some cn -> new s = Some ∅ ->
      (diff a cn ∅ s w).2 = None ->
      steady (S (S fuel)) a [] s w = ((diff a cn ∅ s w).1, Parked))
  /\ (forall s, Session_Set s [] = (with_new s (Some ∅), None))
  /\ (forall fuel s w,
      advertised s = ∅ -> new s = None -> is_Some (conn s) ->
      (sendUpdates (S fuel) [] s w).1.1 = s
      /\ emitted w (sendUpdates (S fuel) [] s w).1.2 = []
      /\ (sendUpdates (S fuel) [] s w).2 = Parked).
Proof.
  split; [exact steady_absent |]. split; [exact diff_empty |].
  split; [| split; [done | exact sendUpdates_never_set]].
  intros fuel a cn s w Hcl Hc Hn Hr.
  rewrite (steady_diff _ _ _ cn ∅) by done.
  pose proof (diff_cases a cn ∅ s w) as Hd.
  destruct (diff a cn ∅ s w) as [[s2 w2] e] eqn:Hdiff. simpl in *. subst e.
  destruct Hd as [(_ & -> & _)|[(c & ? & ? & ? & _)|(? & _)]]; [| done ..].
  simpl. by rewrite Hc.
Qed.

End AbsentOrEmpty.

(** ** A whole call of [sendUpdates] *)

Section WholeRun.
Context `{GoRuntime}.

Lemma grows_refl a w w' : wire w' = wire w -> grows a w w'.
Proof. intros Hw. exists []. by rewrite app_nil_r. Qed.

Lemma grows_trans a w1 w2 w3 : grows a w1 w2 -> grows a w2 w3 -> grows a w1 w3.
Proof.
  intros (e1 & H1 & F1) (e2 & H2 & F2). exists (e1 ++ e2). split.
  - by rewrite H2, H1, <- app_assoc.
  - by apply Forall_app.
Qed.

Lemma Forall_carries_updates cn a l : Forall (carries a) (updates cn a l).
Proof. unfold updates. apply Forall_fmap, Forall_forall. by intros p _. Qed.

Lemma sendKeepalive_grows a s w : grows a w (sendKeepalive s w).1.2.
Proof.
  unfold sendKeepalive. destruct (closed s); [by apply grows_refl |].
  destruct (conn s) as [c|]; [| by apply grows_refl].
  pose proof (write_wire c MKeepalive w) as Hw.
  destruct (write c MKeepalive w) as [w1 ok]. simpl in Hw.
  assert (Hg : grows a w w1).
  { exists (if ok then [(c, MKeepalive)] else []). split; [done |].
    destruct ok; repeat constructor. }
  destruct ok; [done |].
  pose proof (abort_world s w1) as (Haw & _).
  destruct (abort s w1) as [s2 w2]. simpl in *.
  eapply grows_trans; [done | by apply grows_refl].
Qed.

Lemma run_event_grows a e s w : grows a w (run_event e s w).2.
Proof.
  destruct e as [advs| | | |c|]; simpl; try by apply grows_refl.
  - apply grows_refl. unfold Session_Close. by destruct (abort_world (with_closed s true) w).
  - pose proof (sendKeepalive_grows a s w) as Hg.
    by destruct (sendKeepalive s w) as [[s1 w1] e].
  - unfold consumeBGP_exit. case_bool_decide; apply grows_refl; [| done].
    by destruct (abort_world s w).
Qed.

Lemma run_events_grows a evs s w : grows a w (run_events evs s w).2.
Proof.
  revert s w. induction evs as [|e evs IH]; intros s w; simpl; [by apply grows_refl |].
  pose proof (run_event_grows a e s w) as Hg.
  destruct (run_event e s w) as [s' w']. simpl in Hg.
  eapply grows_trans; [done | apply IH].
Qed.

Lemma wait_grows a evs s w : grows a w (wait evs s w).2.
Proof.
  revert s w. induction evs as [|b evs IH]; intros s w; simpl.
  - destruct (new s), (conn s); by apply grows_refl.
  - destruct (new s); [by apply grows_refl |].
    destruct (conn s); [| by apply grows_refl].
    pose proof (run_events_grows a b s w) as Hg.
    destruct (run_events b s w) as [s' w']. simpl in Hg.
    eapply grows_trans; [done | apply IH].
Qed.

Lemma diff_grows a cn n s w : grows a w (diff a cn n s w).1.2.
Proof.
  destruct (diff_cases a cn n s w)
    as [(_ & _ & _ & Hw)|[(c & sent & rest & _ & _ & _ & _ & _ & Hw)|(_ & _ & _ & _ & Hw)]];
    eexists; (split; [exact Hw |]); try apply Forall_carries_updates.
  apply Forall_app. split; [apply Forall_carries_updates |].
  case_decide; repeat constructor.
Qed.

Lemma steady_grows fuel a evs s w : grows a w (steady fuel a evs s w).1.2.
Proof.
  revert evs s w. induction fuel as [|fuel IH]; intros evs s w; simpl;
    [by apply grows_refl |].
  pose proof (wait_grows a evs s w) as Hg.
  destruct (wait evs s w) as [[[evs1|] s1] w1]; simpl in Hg; [| done].
  destruct (closed s1); [done |]. destruct (conn s1) as [cn|]; [| done].
  destruct (new s1) as [n|]; [| eapply grows_trans; [done | apply IH]].
  pose proof (diff_grows a cn n s1 w1) as Hd.
  destruct (diff a cn n s1 w1) as [[s2 w2] [e|]]; simpl in Hd.
  - by eapply grows_trans.
  - eapply grows_trans; [done |]. eapply grows_trans; [done | apply IH].
Qed.

Lemma first_pass_grows s w : grows (wire_asn s) w (first_pass s w).1.2.
Proof.
  pose proof (first_pass_emitted s w) as He.
  assert (Hpre : exists ext, wire (first_pass s w).1.2 = wire w ++ ext).
  { unfold first_pass, next_range.
    set (s1 := match new s with Some n => promote s n | None => s end).
    destruct (conn s1) as [cn|].
    - set (w0 := mkWorld _ _ _ _).
      destruct (send_each_spec cn (wire_asn s) (fun _ _ => false)
                  (range (ranges w) (advertised s1)) w0)
        as (_ & _ & sent & rest & _ & Hwire & _).
      destruct (send_each cn (wire_asn s) _ _ w0) as [w1 [c|]]; simpl in *.
      + pose proof (abort_world s1 w1) as (Haw & _).
        destruct (abort s1 w1) as [s' w']. simpl in *. eexists. by rewrite Haw.
      + by eexists.
    - exists []. rewrite app_nil_r. by destruct (range (ranges w) (advertised s1)). }
  destruct Hpre as [ext Hext]. exists ext. split; [done |].
  apply emitted_app in Hext. rewrite Hext in He.
  apply Forall_forall. intros m Hm.
  destruct (He m Hm) as (cn & c & adv & _ & -> & _). by unfold carries.
Qed.

Lemma wait_result evs s w :
  match wait evs s w with
  | (None, _, _) => True
  | (Some evs1, s1, _) =>
      waiting s1 = false
      /\ length evs1 + (if waiting s then 1 else 0) <= length evs
  end.
Proof.
  revert s w. induction evs as [|e evs IH]; intros s w; simpl; unfold waiting.
  - destruct (new s) eqn:Hn, (conn s) eqn:Hc; simpl; rewrite ?Hn, ?Hc;
      try done; split; done.
  - destruct (new s) eqn:Hn; [simpl; rewrite Hn; split; [done | lia] |].
    destruct (conn s) eqn:Hc; [| simpl; rewrite Hn, Hc; split; [done | lia]].
    destruct (run_events e s w) as [s' w'].
    specialize (IH s' w'). destruct (wait evs s' w') as [[[evs1|] s1] w1]; [| done].
    destruct IH as [Hw Hlen]. split; [done |]. destruct (waiting s'); lia.
Qed.

(** The loop does not run for ever on a finite list of events: with more
    fuel than events plus one it returns, parks or reports a failure. *)
Lemma steady_enough_fuel fuel a evs s w :
  length evs + (if waiting s then 0 else 1) < fuel ->
  (steady fuel a evs s w).2 <> Exhausted.
Proof.
  revert evs s w. induction fuel as [|fuel IH]; intros evs s w Hlt; [lia |].
  simpl. pose proof (wait_result evs s w) as Hw.
  destruct (wait evs s w) as [[[evs1|] s1] w1]; [| done].
  destruct Hw as [Hnw Hlen].
  destruct (closed s1); [done |].
  destruct (conn s1) as [cn|] eqn:Hc; [| done].
  destruct (new s1) as [n|] eqn:Hn; [| by unfold waiting in Hnw; rewrite Hn, Hc in Hnw].
  pose proof (diff_cases a cn n s1 w1) as Hd.
  destruct (diff a cn n s1 w1) as [[s2 w2] [e|]]; [done |]. simpl in Hd.
  destruct Hd as [(_ & -> & _)|[(? & ? & ? & ? & _)|(? & _)]]; [| done ..].
  apply IH. unfold waiting at 1. simpl. rewrite Hc.
  destruct (waiting s); lia.
Qed.

Lemma sendUpdates_enough_fuel evs s w :
  (sendUpdates (length evs + 2) evs s w).2 <> Exhausted.
Proof.
  unfold sendUpdates.
  assert (Hf : forall o, (first_pass s w).2 = Some o -> o <> Exhausted).
  { unfold first_pass, next_range.
    set (s1 := match new s with Some n => promote s n | None => s end).
    destruct (conn s1) as [cn|].
    - destruct (send_each _ _ _ _ _) as [w1 [k|]]; [| done].
      destruct (abort s1 w1). simpl. by intros o [= <-].
    - destruct (range _ _); simpl; [done | by intros o [= <-]]. }
  destruct (first_pass s w) as [[s1 w1] [o|]]; simpl in *; [by apply Hf |].
  apply steady_enough_fuel. destruct (waiting s1); lia.
Qed.

(** C9. Every UPDATE written during a call of [sendUpdates], in the pass
    made on entry and in every later diff, carries to the encoder the ASN
    0 when the local and the peer ASN of the session are equal, and the
    local ASN otherwise. *)
Theorem updates_carry_wire_asn (fuel : nat) (evs : list (list Event)) (s : Session) (w : World) :
  exists ext,
    wire (sendUpdates fuel evs s w).1.2 = wire w ++ ext
    /\ forall cn x adv,
         (cn, MUpdate x adv) ∈ ext ->
         x = if (peerASN s =? asn s)%Z then 0%Z else asn s.
Proof.
  assert (Hg : grows (wire_asn s) w (sendUpdates fuel evs s w).1.2).
  { unfold sendUpdates. pose proof (first_pass_grows s w) as Hf.
    destruct (first_pass s w) as [[s1 w1] [o|]]; simpl in *; [done |].
    eapply grows_trans; [done | apply steady_grows]. }
  destruct Hg as (ext & Hw & Hall). exists ext. split; [done |].
  intros cn x adv Hin. rewrite Forall_forall in Hall.
  exact (Hall _ Hin).
Qed.

End WholeRun.

(** ** The test of line 106 *)

Section UpToDate.
Context `{GoRuntime}.

Lemma up_to_date_iff (advd : gmap string Advertisement) c adv :
  up_to_date advd c adv = true <->
  exists adv2, advd !! c = Some adv2
               /\ Net.Equal (NextHop adv2) (NextHop adv) = true
               /\ Communities adv2 = Communities adv.
Proof.
  unfold up_to_date. destruct (advd !! c) as [adv2|]; [| by split; [| intros (? & ? & _)]].
  rewrite andb_true_iff, DeepEqual_eq. split.
  - intros [? ?]. by exists adv2.
  - by intros (? & [= <-] & ? & ?).
Qed.

(** The local preference plays no part in the test. *)
Lemma up_to_date_LocalPref (advd : gmap string Advertisement) c p nh cs lp lp' :
  up_to_date advd c (mkAdv p nh lp cs) = up_to_date advd c (mkAdv p nh lp' cs).
Proof. done. Qed.

Lemma up_to_date_same (advd : gmap string Advertisement) c p nh cs lp lp' :
  advd !! c = Some (mkAdv p nh lp cs) ->
  up_to_date advd c (mkAdv p nh lp' cs) = true.
Proof.
  intros Hl. apply up_to_date_iff. eexists. split; [done |]. simpl.
  split; [apply Equal_refl | done].
Qed.

(** An entry that passes the test has the same communities, element by
    element, as the advertised one. *)
Lemma up_to_date_elems (advd : gmap string Advertisement) c adv :
  up_to_date advd c adv = true ->
  exists adv2, advd !! c = Some adv2
               /\ Net.Equal (NextHop adv2) (NextHop adv) = true
               /\ elems (Communities adv2) = elems (Communities adv).
Proof.
  intros (adv2 & Hl & Hnh & Hc)%up_to_date_iff. exists adv2. by rewrite Hc.
Qed.

(** With no failing write ahead, a diff commits. *)
Lemma diff_quiet a cn n s w : script w = [] -> (diff a cn n s w).2 = None.
Proof.
  intros Hs. unfold diff, next_range.
  set (w0 := mkWorld (wire w) (closedConns w) (script w) (S (ranges w))).
  destruct (send_each_quiet cn a (up_to_date (advertised s)) (range (ranges w) n) w0 Hs)
    as [Hnone Hsc].
  destruct (send_each cn a _ _ w0) as [w1 failed]. simpl in *. subst failed.
  destruct (0 <? _); [| done].
  set (w2 := mkWorld _ _ _ _).
  destruct (write_quiet cn (MWithdraw (withdrawals (range (ranges w1) (advertised s)) n)) w2 Hsc)
    as [Hok _].
  destruct (write cn _ w2) as [w3 ok]. simpl in *. by subst ok.
Qed.

(** A diff that is not cut short writes one UPDATE for each entry of the
    pending set that fails the test, and no other. *)
Lemma diff_updates_committed a cn n s w :
  (diff a cn n s w).2 = None ->
  filter is_update (emitted w (diff a cn n s w).1.2)
  = updates cn a (to_send (up_to_date (advertised s)) (range (ranges w) n))
  /\ to_send (up_to_date (advertised s)) (range (ranges w) n)
     ≡ₚ filter (fun p => up_to_date (advertised s) p.1 p.2 = false) (map_to_list n).
Proof.
  intros Hr. split.
  - destruct (diff_cases a cn n s w)
      as [(_ & _ & _ & Hw)|[(c & ? & ? & ? & _)|(? & _)]]; [| congruence ..].
    apply emitted_app in Hw. rewrite Hw, filter_app, filter_updates_update.
    case_decide; simpl; [by rewrite app_nil_r |].
    rewrite filter_cons, decide_False; [by rewrite app_nil_r |].
    unfold is_update. simpl. tauto.
  - unfold to_send. by rewrite (range_perm _ n).
Qed.

End UpToDate.

(** C1. The peer holds 10.2.0.0/24 via 10.0.0.1 with a nil community
    slice, and the same advertisement is set again with an empty, non-nil
    slice.  The advertised entry exists, the next hops are equal and the
    two community sequences are equal element by element, yet the diff
    does not skip the entry: [reflect.DeepEqual] tells nil from empty, and
    one UPDATE is written. *)
Theorem diff_resends_empty_for_nil_communities :
  let s := Example.wanting [Example.A2] [Example.A2e] in
  let r := diff (H := Example.runtime) 65001 7 (keyed (H := Example.runtime) ∅ [Example.A2e])
             s Example.w0 in
  advertised s !! "10.2.0.0/24" = Some Example.A2
  /\ new s = Some {[ "10.2.0.0/24" := Example.A2e ]}
  /\ Net.Equal (NextHop Example.A2) (NextHop Example.A2e) = true
  /\ elems (Communities Example.A2) = elems (Communities Example.A2e)
  /\ up_to_date (advertised s) "10.2.0.0/24" Example.A2e = false
  /\ r.2 = None
  /\ emitted Example.w0 r.1.2 = [(7, MUpdate 65001 Example.A2e)].
Proof. vm_compute. repeat split; reflexivity. Qed.

(** ** Hold time and keepalives *)

Section HoldTime.
Context `{GoRuntime}.

Lemma connect_ok p s w :
  (connect p s w).2 = None ->
  exists c a requestedHold,
    dialed p = Some c /\ peerOpen p = Some (a, requestedHold) /\ a = peerASN s
    /\ actualHoldTime (connect p s w).1.1 = Z.min (holdTime s) requestedHold
    /\ newHoldTime (connect p s w).1.1 = true
    /\ conn (connect p s w).1.1 = Some c.
Proof.
  unfold connect. destruct (dialed p) as [c|]; [| done].
  destruct (write c (MOpen (asn s) (routerID s) (holdTime s)) w) as [w1 [|]]; simpl; [| done].
  destruct (peerOpen p) as [[a rh]|]; [| done].
  destruct (a =? peerASN s)%Z eqn:Ha; simpl; [| done].
  destruct (write c MKeepalive w1) as [w2 [|]]; simpl; [| done].
  intros _. exists c, a, rh. apply Z.eqb_eq in Ha. repeat split; try done.
  destruct (rh <? holdTime s)%Z eqn:Hlt.
  - apply Z.ltb_lt in Hlt. lia.
  - apply Z.ltb_ge in Hlt. lia.
Qed.

Lemma ticker_hold t s w :
  newHoldTime s = true ->
  (actualHoldTime s = 0 \/ 3 <= actualHoldTime s)%Z ->
  sendKeepalives_step HoldPublished t s w
  = Some (TickerRuns (if (actualHoldTime s =? 0)%Z then None
                      else Some (actualHoldTime s ÷ 3)%Z),
          with_hold s (actualHoldTime s) false, w).
Proof.
  intros Hs Hht. simpl. rewrite Hs. destruct (actualHoldTime s =? 0)%Z eqn:Hz; [done |].
  apply Z.eqb_neq in Hz. unfold NewTicker.
  assert (0 < actualHoldTime s ÷ 3)%Z as ->%Z.ltb_lt; [| done].
  rewrite Z.quot_div_nonneg by lia. apply Z.div_str_pos. lia.
Qed.

Lemma ticker_tick d s w cn :
  closed s = false -> conn s = Some cn -> script w = [] ->
  exists w', sendKeepalives_step Tick (Some d) s w = Some (TickerRuns (Some d), s, w')
             /\ emitted w w' = [(cn, MKeepalive)].
Proof.
  intros Hcl Hc Hs. simpl. unfold sendKeepalive. rewrite Hcl, Hc.
  unfold write. rewrite Hs. eexists. split; [done |]. by apply emitted_app.
Qed.

(** C6, amended.  A successful [connect] leaves as hold time the smaller
    of the configured one and the one the peer asked for, and fills the
    slot read by the ticker.  On taking it the ticker drops its timer; for
    a zero hold time it starts none, and with no timer its tick case never
    fires, so no keepalive is written; for a hold time of at least 3 ns it
    starts one whose period is the hold time divided by three in the
    integer nanoseconds of [time.Duration], rounded down (three periods
    fall short of the hold time by less than 3 ns), and each tick on a
    live session writes one KEEPALIVE.  A configured 90 s with a peer
    asking for 30 s gives a period of 10 s. *)
Theorem hold_time_sets_keepalive_period :
  (forall p s w,
      (connect p s w).2 = None ->
      exists c a requestedHold,
        dialed p = Some c /\ peerOpen p = Some (a, requestedHold) /\ a = peerASN s
        /\ actualHoldTime (connect p s w).1.1 = Z.min (holdTime s) requestedHold
        /\ newHoldTime (connect p s w).1.1 = true
        /\ conn (connect p s w).1.1 = Some c)
  /\ (forall t s w,
      newHoldTime s = true ->
      (actualHoldTime s = 0 \/ 3 <= actualHoldTime s)%Z ->
      sendKeepalives_step HoldPublished t s w
      = Some (TickerRuns (if (actualHoldTime s =? 0)%Z then None
                          else Some (actualHoldTime s ÷ 3)%Z),
              with_hold s (actualHoldTime s) false, w))
  /\ (forall ht, (0 <= ht)%Z -> (3 * (ht ÷ 3) <= ht < 3 * (ht ÷ 3) + 3)%Z)
  /\ (forall s w, sendKeepalives_step Tick None s w = None)
  /\ (forall d s w cn,
      closed s = false -> conn s = Some cn -> script w = [] ->
      exists w', sendKeepalives_step Tick (Some d) s w = Some (TickerRuns (Some d), s, w')
                 /\ emitted w w' = [(cn, MKeepalive)])
  /\ (forall p s w t a,
      holdTime s = (90 * second)%Z -> peerOpen p = Some (a, (30 * second)%Z) ->
      (connect p s w).2 = None ->
      ticker_after (sendKeepalives_step HoldPublished t (connect p s w).1.1 (connect p s w).1.2)
      = Some (TickerRuns (Some (10 * second)%Z))).
Proof.
  split; [exact connect_ok |]. split; [exact ticker_hold |].
  split; [| split; [done |]; split; [exact ticker_tick |]].
  - intros ht Hht. rewrite Z.quot_div_nonneg by lia.
    pose proof (Z.div_mod ht 3 ltac:(lia)). pose proof (Z.mod_pos_bound ht 3 ltac:(lia)). lia.
  - intros p s w t a Hcfg Hpeer Hok.
    destruct (connect_ok p s w Hok) as (c & a' & rh & _ & Hp & _ & Hht & Hslot & _).
    rewrite Hpeer in Hp. injection Hp as <- <-.
    rewrite ticker_hold; [| done | rewrite Hht, Hcfg; unfold second; lia].
    unfold ticker_after. simpl. rewrite Hht, Hcfg. done.
Qed.

End HoldTime.

(** ** The reader *)

Lemma consumeBGP_loop_total fuel input :
  length input < fuel -> is_Some (consumeBGP_loop fuel input).
Proof.
  revert input. induction fuel as [|fuel IH]; intros input Hlt; [lia |].
  simpl. destruct (length input <? 19) eqn:Hshort; [by eexists |].
  destruct (forallb (Z.eqb 255) (take 16 input)); simpl; [| by eexists].
  apply IH. apply Nat.ltb_ge in Hshort.
  rewrite !length_drop. lia.
Qed.

(** C7. A reader whose stream ends, on a short read or on a bad marker,
    runs [abort] exactly when the connection of the session is the very
    one it was started with.  Otherwise it closes only its own socket: the
    session, its current connection included, is as before, and no other
    socket is closed. *)
Theorem reader_aborts_only_its_own_connection
  (c : Conn) (input : list Z) (s : Session) (w : World) :
  (exists why, consumeBGP c input s w = Some (why, consumeBGP_exit c s w))
  /\ (consumeBGP_exit c s w = abort s w <-> conn s = Some c)
  /\ (conn s = Some c ->
      conn (consumeBGP_exit c s w).1 = None
      /\ c ∈ closedConns (consumeBGP_exit c s w).2)
  /\ (conn s <> Some c ->
      (consumeBGP_exit c s w).1 = s
      /\ wire (consumeBGP_exit c s w).2 = wire w
      /\ closedConns (consumeBGP_exit c s w).2 = c :: closedConns w)
  /\ (forall c', conn s = Some c' -> c' <> c ->
      conn (consumeBGP_exit c s w).1 = Some c'
      /\ (c' ∈ closedConns (consumeBGP_exit c s w).2 -> c' ∈ closedConns w)).
Proof.
  assert (Helse : conn s <> Some c -> consumeBGP_exit c s w = (s, closeConn c w)).
  { intros Hne. unfold consumeBGP_exit. by rewrite bool_decide_eq_false_2. }
  assert (Hthen : conn s = Some c -> consumeBGP_exit c s w = abort s w).
  { intros He. unfold consumeBGP_exit. by rewrite bool_decide_eq_true_2. }
  split; [| split; [| split; [| split]]].
  - unfold consumeBGP.
    destruct (consumeBGP_loop_total (S (length input)) input) as [why ->]; [lia |].
    by exists why.
  - split; [| done]. intros Heq. destruct (decide (conn s = Some c)) as [|Hne]; [done |].
    exfalso. rewrite (Helse Hne) in Heq.
    pose proof (abort_world s w) as (_ & _ & _ & Hcl). rewrite <- Heq in Hcl. simpl in Hcl.
    destruct (conn s) as [c'|].
    + injection Hcl as ->. done.
    + apply (f_equal length) in Hcl. simpl in Hcl. lia.
  - intros He. rewrite (Hthen He).
    pose proof (abort_session s w) as (Hc & _).
    pose proof (abort_world s w) as (_ & _ & _ & Hcl). rewrite He in Hcl.
    split; [done |]. rewrite Hcl. by left.
  - intros Hne. by rewrite (Helse Hne).
  - intros c' Hc' Hne. rewrite Helse by congruence. simpl. split; [done |].
    intros [?|?]%elem_of_cons; done.
Qed.

(** ** The claims on the scenarios of the spec *)

(** Withdrawal derivation: with 10.1, 10.2 and 10.3 advertised and 10.1
    and 10.4 wanted, one WITHDRAW lists 10.2 and 10.3. *)
Lemma diff_withdraws_missing_keys_witness :
  let s := Example.wanting [Example.A1; Example.A2; Example.A3] [Example.A1; Example.A4] in
  let r := diff (H := Example.runtime) 65001 7
             (keyed (H := Example.runtime) ∅ [Example.A1; Example.A4]) s Example.w0 in
  r.2 = None
  /\ filter is_withdraw (emitted Example.w0 r.1.2)
     = [(7, MWithdraw [Example.net24 10 3 0; Example.net24 10 2 0])].
Proof.
  intros s r.
  assert (Hr : r.2 = None) by (vm_compute; reflexivity).
  split; [exact Hr |].
  pose proof (proj1 (proj2 (proj2 (proj2
    (diff_withdraws_missing_keys (H := Example.runtime) 65001 7
       (keyed (H := Example.runtime) ∅ [Example.A1; Example.A4]) s Example.w0))))) as Hw.
  simpl in Hw. apply Hw; [vm_compute; discriminate | exact Hr].
Defined.

(** The second UPDATE of a diff fails, and in another diff the WITHDRAW
    that follows its one UPDATE: each time the connection is gone and the
    whole pending set is what the next connection starts from. *)
Lemma send_error_aborts_witness :
  let n := keyed (H := Example.runtime) ∅ [Example.A2; Example.A3] in
  let r := diff (H := Example.runtime) 65001 7 n
             (Example.wanting [Example.A1] [Example.A2; Example.A3]) Example.w_cut in
  let n' := keyed (H := Example.runtime) ∅ [Example.A2] in
  let r' := diff (H := Example.runtime) 65001 7 n'
              (Example.wanting [Example.A1] [Example.A2]) Example.w_cut in
  (r.2 = Some (errSendUpdate "10.2.0.0/24")
   /\ conn r.1.1 = None /\ 7 ∈ closedConns r.1.2 /\ new r.1.1 = None
   /\ advertised r.1.1 = n)
  /\ (r'.2 = Some (errSendWithdraw [Example.net24 10 1 0])
      /\ conn r'.1.1 = None /\ 7 ∈ closedConns r'.1.2 /\ new r'.1.1 = None
      /\ advertised r'.1.1 = n').
Proof.
  intros n r n' r'. split.
  - split; [vm_compute; reflexivity |].
    destruct (proj1 (send_error_aborts (H := Example.runtime)) 65001%Z 7 n
                (Example.wanting [Example.A1] [Example.A2; Example.A3]) Example.w_cut
                eq_refl eq_refl) as (_ & Hstate & _).
    apply Hstate. exists 1. split; [vm_compute; lia | reflexivity].
  - split; [vm_compute; reflexivity |].
    destruct (proj1 (send_error_aborts (H := Example.runtime)) 65001%Z 7 n'
                (Example.wanting [Example.A1] [Example.A2]) Example.w_cut
                eq_refl eq_refl) as (_ & Hstate & _).
    apply Hstate. exists 1. split; [vm_compute; lia | reflexivity].
Defined.

(** [Set()] with 10.1 and 10.2 advertised: both are withdrawn. *)
Lemma absent_differs_from_empty_witness :
  let s := Example.wanting [Example.A1; Example.A2] [] in
  let r := diff (H := Example.runtime) 65001 7 ∅ s Example.w0 in
  advertised r.1.1 = ∅
  /\ new r.1.1 = None
  /\ emitted Example.w0 r.1.2
     = [(7, MWithdraw [Example.net24 10 1 0; Example.net24 10 2 0])].
Proof.
  intros s r.
  destruct (proj1 (proj2 (absent_differs_from_empty (H := Example.runtime)))
              65001%Z 7 s Example.w0 eq_refl) as (_ & Ha & Hn & Hok & _).
  split; [exact Ha |]. split; [exact Hn |]. subst r.
  rewrite Hok by (vm_compute; reflexivity). vm_compute. reflexivity.
Defined.

(** Configured 90 s, peer asks for 30 s: the ticker runs every 10 s. *)
Lemma hold_time_sets_keepalive_period_witness :
  let p := mkAttempt (Some 8) (Some (65002, 30 * second))%Z in
  let r := connect p Example.idle Example.w0 in
  r.2 = None
  /\ actualHoldTime r.1.1 = (30 * second)%Z
  /\ ticker_after (sendKeepalives_step HoldPublished None r.1.1 r.1.2)
     = Some (TickerRuns (Some 10000000000%Z)).
Proof.
  intros p r.
  assert (Hr : r.2 = None) by (vm_compute; reflexivity).
  split; [exact Hr |]. split; [vm_compute; reflexivity |].
  exact (proj2 (proj2 (proj2 (proj2 (proj2 hold_time_sets_keepalive_period))))
           p Example.idle Example.w0 None 65002%Z eq_refl eq_refl Hr).
Defined.

(** A reader left over from connection 3 ends while the session runs on
    connection 7: only socket 3 is closed. *)
Lemma reader_aborts_only_its_own_connection_witness :
  let r := consumeBGP_exit 3 Example.s0 Example.w0 in
  r.1 = Example.s0 /\ conn r.1 = Some 7 /\ closedConns r.2 = [3].
Proof.
  intros r.
  destruct (proj1 (proj2 (proj2 (proj2
    (reader_aborts_only_its_own_connection 3 [] Example.s0 Example.w0)))))
    as (Hs & _ & Hc).
  - simpl. discriminate.
  - subst r. split; [exact Hs |]. split; [by rewrite Hs | exact Hc].
Defined.

(** Towards a peer in the same AS the UPDATE carries the ASN 0. *)
Lemma updates_carry_wire_asn_witness :
  let r := sendUpdates (H := Example.runtime) 3 [[EvSet [Example.A1]]] Example.ibgp Example.w0 in
  emitted Example.w0 r.1.2 = [(7, MUpdate 0 Example.A1)]
  /\ (forall cn x adv, (cn, MUpdate x adv) ∈ emitted Example.w0 r.1.2 -> x = 0%Z).
Proof.
  intros r. split; [vm_compute; reflexivity |].
  destruct (updates_carry_wire_asn (H := Example.runtime) 3 [[EvSet [Example.A1]]]
              Example.ibgp Example.w0) as (ext & Hw & Hall).
  apply emitted_app in Hw. subst r. rewrite Hw.
  intros cn x adv Hin. exact (Hall cn x adv Hin).
Defined.

(** Scenarios 1 to 3 of the spec, run through the writer: an UPDATE for
    10.1.0.0/24, then one for 10.2.0.0/24 only, then a WITHDRAW of
    10.1.0.0/24, after which the writer waits. *)
Example scenarios_1_to_3 :
  let r := sendUpdates (H := Example.runtime) 5
             [[EvSet [Example.A1]]; [EvSet [Example.A1; Example.A2]]; [EvSet [Example.A2]]]
             Example.s0 Example.w0 in
  wire r.1.2 = [(7, MUpdate 65001 Example.A1);
                (7, MUpdate 65001 Example.A2);
                (7, MWithdraw [Example.net24 10 1 0])]
  /\ r.2 = Parked
  /\ advertised r.1.1 = {[ "10.2.0.0/24" := Example.A2 ]}.
Proof. vm_compute. repeat split; reflexivity. Qed.

(** The reader stops at the end of the stream after a KEEPALIVE, and at
    once on a marker that is not all ones. *)
Example reader_stops :
  consumeBGP_loop 20 (replicate 16 255 ++ [0; 19; 4])%Z = Some StopRead
  /\ consumeBGP_loop 20 (0 :: replicate 15 255 ++ [0; 19; 4])%Z = Some StopMarker.
Proof. split; reflexivity. Qed.

(** ** The connector, one attempt *)

Section ConnectFacts.
Context `{GoRuntime}.

(** X1. A failed attempt leaves the session exactly as it was and, when
    the dial had succeeded, closes the socket it had opened; a failed dial
    touches nothing. *)
Theorem connect_failure_keeps_session (p : Attempt) (s : Session) (w : World) (e : Error) :
  (connect p s w).2 = Some e ->
  (connect p s w).1.1 = s
  /\ match dialed p with
     | Some c => closedConns (connect p s w).1.2 = c :: closedConns w
     | None => (connect p s w).1.2 = w
     end.
Proof.
  unfold connect. destruct (dialed p) as [c|]; [| done].
  pose proof (write_closedConns c (MOpen (asn s) (routerID s) (holdTime s)) w) as Hc1.
  destruct (write c (MOpen (asn s) (routerID s) (holdTime s)) w) as [w1 [|]]; simpl in *;
    [| intros _; simpl; by rewrite Hc1].
  destruct (peerOpen p) as [[a rh]|]; [| intros _; simpl; by rewrite Hc1].
  destruct (a =? peerASN s)%Z; simpl; [| intros _; simpl; by rewrite Hc1].
  pose proof (write_closedConns c MKeepalive w1) as Hc2.
  destruct (write c MKeepalive w1) as [w2 [|]]; simpl in *; [done |].
  intros _. simpl. by rewrite Hc2, Hc1.
Qed.

(** X2. A successful attempt has written, on the socket it dialed, the
    OPEN with the local ASN, router ID and configured hold time and then
    one KEEPALIVE, nothing else; the socket is the connection of the
    session, no socket was closed, and the advertised and pending sets
    and the closed flag are untouched. *)
Theorem connect_handshake (p : Attempt) (s : Session) (w : World) :
  (connect p s w).2 = None ->
  exists c,
    dialed p = Some c
    /\ conn (connect p s w).1.1 = Some c
    /\ emitted w (connect p s w).1.2
       = [(c, MOpen (asn s) (routerID s) (holdTime s)); (c, MKeepalive)]
    /\ closedConns (connect p s w).1.2 = closedConns w
    /\ advertised (connect p s w).1.1 = advertised s
    /\ new (connect p s w).1.1 = new s
    /\ closed (connect p s w).1.1 = closed s.
Proof.
  unfold connect. destruct (dialed p) as [c|]; [| done].
  pose proof (write_closedConns c (MOpen (asn s) (routerID s) (holdTime s)) w) as Hc1.
  pose proof (write_wire c (MOpen (asn s) (routerID s) (holdTime s)) w) as Hw1.
  destruct (write c (MOpen (asn s) (routerID s) (holdTime s)) w) as [w1 [|]]; simpl in *;
    [| done].
  destruct (peerOpen p) as [[a rh]|]; [| done].
  destruct (a =? peerASN s)%Z; simpl; [| done].
  pose proof (write_closedConns c MKeepalive w1) as Hc2.
  pose proof (write_wire c MKeepalive w1) as Hw2.
  destruct (write c MKeepalive w1) as [w2 [|]]; simpl in *; [| done].
  intros _. exists c. repeat split; try done; [| congruence].
  apply emitted_app. rewrite Hw2, Hw1. by rewrite <- app_assoc.
Qed.

(** X3. A peer that announces another ASN than the configured one is
    turned away: the attempt fails, the session is unchanged, the socket
    is closed, and no KEEPALIVE accepts its OPEN. *)
Theorem connect_rejects_other_asn
  (p : Attempt) (s : Session) (w : World) (c : Conn) (a h : Z) :
  dialed p = Some c -> peerOpen p = Some (a, h) -> a <> peerASN s ->
  ((connect p s w).2 = Some errSendOpen
   \/ (connect p s w).2 = Some (errPeerASN a (peerASN s)))
  /\ (connect p s w).1.1 = s
  /\ c ∈ closedConns (connect p s w).1.2
  /\ (c, MKeepalive) ∉ emitted w (connect p s w).1.2.
Proof.
  intros Hd Hp Hne. unfold connect. rewrite Hd.
  pose proof (write_wire c (MOpen (asn s) (routerID s) (holdTime s)) w) as Hw1.
  destruct (write c (MOpen (asn s) (routerID s) (holdTime s)) w) as [w1 [|]]; simpl in *.
  - rewrite Hp. apply Z.eqb_neq in Hne. rewrite Hne. simpl.
    repeat split; [by right | by left |].
    unfold emitted. simpl. rewrite Hw1, drop_app_length.
    by intros [=]%list_elem_of_singleton.
  - repeat split; [by left | by left |].
    unfold emitted. simpl. rewrite Hw1, drop_app_length.
    by intros ?%elem_of_nil.
Qed.

End ConnectFacts.

(** [To4] gives four bytes, the same address as its argument. *)
Lemma To4_length ip ip4 : Net.To4 ip = Some ip4 -> length ip4 = 4.
Proof.
  unfold Net.To4. destruct (length ip =? Net.IPv4len) eqn:H4.
  - intros [= <-]. by apply Nat.eqb_eq in H4.
  - destruct (length ip =? Net.IPv6len) eqn:H6; [| done].
    apply Nat.eqb_eq in H6. unfold Net.IPv6len in H6.
    destruct (_ && _); [| done]. intros [= <-].
    rewrite length_take, length_drop. lia.
Qed.

Lemma To4_Equal ip ip4 : Net.To4 ip = Some ip4 -> Net.Equal ip4 ip = true.
Proof.
  unfold Net.To4. destruct (length ip =? Net.IPv4len) eqn:H4.
  - intros [= <-]. apply Equal_refl.
  - destruct (length ip =? Net.IPv6len) eqn:H6; [| done].
    apply Nat.eqb_eq in H6. unfold Net.IPv6len in H6.
    destruct (Net.isZeros (take 10 ip)) eqn:Hz; simpl; [| done].
    case_bool_decide as H10; simpl; [| done].
    case_bool_decide as H11; simpl; [| done].
    intros [= <-].
    do 16 (destruct ip as [|? ip]; [simpl in H6; lia |]).
    destruct ip; [| simpl in H6; lia].
    cbn in H10, H11. simplify_eq.
    unfold Net.isZeros in Hz. cbn [take forallb] in Hz.
    rewrite !andb_true_iff in Hz. destruct_and!.
    repeat match goal with
           | Hx : (0 =? _)%Z = true |- _ => apply Z.eqb_eq in Hx; subst
           end.
    unfold Net.Equal, Net.bytesEqual. simpl.
    by rewrite !bool_decide_eq_true_2 by done.
Qed.

(** X4. [New] refuses a router ID that is not an IPv4 address and nothing
    else; the session it makes keeps the router ID as four bytes, the same
    address as the one given, takes the other arguments as they are, and
    starts disconnected, open, with nothing advertised and nothing
    pending. *)
Theorem New_session (a : string) (localASN : Z) (rid : list Z) (peer hold : Z) :
  match New a localASN rid peer hold with
  | inl e => Net.To4 rid = None /\ e = errRouterID rid
  | inr s =>
      length (routerID s) = 4
      /\ Net.Equal (routerID s) rid = true
      /\ (asn s, addr s, peerASN s, holdTime s) = (localASN, a, peer, hold)
      /\ conn s = None /\ closed s = false /\ newHoldTime s = false
      /\ advertised s = ∅ /\ new s = None
  end.
Proof.
  unfold New. destruct (Net.To4 rid) as [rid4|] eqn:Hr; [| done].
  simpl. repeat split; [by eapply To4_length | by apply To4_Equal].
Qed.

(** ** [Close], and what is left of a closed session *)

Section CloseFacts.
Context `{GoRuntime}.

Lemma abort_settled s w : conn s = None -> new s = None -> abort s w = (s, w).
Proof. intros Hc Hn. unfold abort. by rewrite Hc, Hn. Qed.

(** X5. [Close] marks the session closed, closes the socket of a live
    connection, drops the connection and folds a pending set into
    [advertised]; it writes nothing.  A second [Close] changes nothing
    more. *)
Theorem Close_idempotent (s : Session) (w : World) :
  closed (Session_Close s w).1 = true
  /\ conn (Session_Close s w).1 = None
  /\ new (Session_Close s w).1 = None
  /\ advertised (Session_Close s w).1 = default (advertised s) (new s)
  /\ wire (Session_Close s w).2 = wire w
  /\ closedConns (Session_Close s w).2
     = match conn s with Some c => c :: closedConns w | None => closedConns w end
  /\ Session_Close (Session_Close s w).1 (Session_Close s w).2 = Session_Close s w.
Proof.
  unfold Session_Close, abort.
  destruct s as [? ? ? ? ? ? ? [c|] ? ? [n|]]; simpl; done.
Qed.

Lemma sendKeepalive_closed s w :
  closed s = true -> sendKeepalive s w = (s, w, Some errClosed).
Proof. intros Hc. unfold sendKeepalive. by rewrite Hc. Qed.

Lemma run_event_closed e s w :
  closed s = true -> conn s = None ->
  closed (run_event e s w).1 = true
  /\ conn (run_event e s w).1 = None
  /\ wire (run_event e s w).2 = wire w
  /\ script (run_event e s w).2 = script w.
Proof.
  intros Hcl Hc. destruct e as [advs| | | |c|]; simpl; try done.
  - unfold Session_Set. by destruct (Set_loop advs ∅).
  - pose proof (abort_session (with_closed s true) w) as (? & _ & _ & ? & _).
    pose proof (abort_world (with_closed s true) w) as (? & ? & _).
    unfold Session_Close. done.
  - by rewrite sendKeepalive_closed.
  - unfold consumeBGP_exit. rewrite Hc. by rewrite bool_decide_eq_false_2.
Qed.

(** X6. Once a session is closed and disconnected, nothing the control
    surface, the ticker or a reader does writes a byte, reopens the
    session or gives it a connection: calls of [Set] are accepted and
    change the pending set only. *)
Theorem closed_session_is_silent (evs : list Event) (s : Session) (w : World) :
  closed s = true -> conn s = None ->
  closed (run_events evs s w).1 = true
  /\ conn (run_events evs s w).1 = None
  /\ wire (run_events evs s w).2 = wire w
  /\ script (run_events evs s w).2 = script w.
Proof.
  revert s w. induction evs as [|e evs IH]; intros s w Hcl Hc; simpl; [done |].
  destruct (run_event_closed e s w Hcl Hc) as (Hcl' & Hc' & Hw & Hs).
  destruct (run_event e s w) as [s' w']. simpl in *.
  destruct (IH s' w' Hcl' Hc') as (? & ? & ? & ?). repeat split; congruence.
Qed.

Lemma run_events_closed evs s w :
  closed s = true -> conn s = None ->
  closed (run_events evs s w).1 = true /\ conn (run_events evs s w).1 = None.
Proof.
  revert s w. induction evs as [|e evs IH]; intros s w Hcl Hc; simpl; [done |].
  destruct (run_event_closed e s w Hcl Hc) as (Hcl' & Hc' & _).
  destruct (run_event e s w) as [s' w']. by apply IH.
Qed.

Lemma run_events_with_Close pre post s w :
  closed (run_events (pre ++ EvClose :: post) s w).1 = true
  /\ conn (run_events (pre ++ EvClose :: post) s w).1 = None.
Proof.
  revert s w. induction pre as [|e pre IH]; intros s w.
  - cbn [app run_events run_event].
    pose proof (abort_session (with_closed s true) w) as (Ac & _ & _ & Acl & _).
    unfold Session_Close. destruct (abort (with_closed s true) w) as [s' w'].
    by apply run_events_closed.
  - cbn [app run_events]. destruct (run_event e s w) as [s' w']. apply IH.
Qed.

(** X7. If [Close] runs during a wait of the writer, then whatever other
    critical sections run before and after it until the writer has the
    lock again, [sendUpdates] returns [errClosed] as soon as it has it: it
    writes nothing itself, and returns in the state the others left,
    closed and without connection. *)
Theorem Close_stops_writer
  (fuel : nat) (a : Z) (pre post : list Event) (evs : list (list Event))
  (s : Session) (w : World) :
  new s = None -> is_Some (conn s) ->
  steady (S fuel) a ((pre ++ EvClose :: post) :: evs) s w
  = (run_events (pre ++ EvClose :: post) s w, Returned (Some errClosed))
  /\ closed (steady (S fuel) a ((pre ++ EvClose :: post) :: evs) s w).1.1 = true
  /\ conn (steady (S fuel) a ((pre ++ EvClose :: post) :: evs) s w).1.1 = None.
Proof.
  intros Hn [c Hc].
  destruct (run_events_with_Close pre post s w) as [Hcl Hnc].
  assert (Heq : steady (S fuel) a ((pre ++ EvClose :: post) :: evs) s w
                = (run_events (pre ++ EvClose :: post) s w, Returned (Some errClosed))).
  { cbn [steady wait]. rewrite Hn, Hc.
    destruct (run_events (pre ++ EvClose :: post) s w) as [s' w']. simpl in Hcl, Hnc.
    assert (Hw : wait evs s' w' = (Some evs, s', w')).
    { destruct evs; simpl; rewrite Hnc; by destruct (new s'). }
    by rewrite Hw, Hcl. }
  rewrite Heq. by split.
Qed.

(** X8. The keepalive of the ticker writes at most one KEEPALIVE, on the
    connection of the session.  It reports [errClosed] exactly on a closed
    session and then writes nothing; without a connection it does nothing;
    when its write fails the connection is torn down as after a failed
    UPDATE: socket closed, no connection, the pending set folded into
    [advertised]. *)
Theorem sendKeepalive_cases (s : Session) (w : World) :
  ((sendKeepalive s w).2 = Some errClosed <-> closed s = true)
  /\ (closed s = true \/ conn s = None -> (sendKeepalive s w).1 = (s, w))
  /\ ((sendKeepalive s w).2 = None ->
      (sendKeepalive s w).1.1 = s
      /\ closedConns (sendKeepalive s w).1.2 = closedConns w
      /\ forall c, conn s = Some c -> closed s = false ->
                   emitted w (sendKeepalive s w).1.2 = [(c, MKeepalive)])
  /\ ((sendKeepalive s w).2 = Some errSendKeepalive ->
      exists c, conn s = Some c
                /\ conn (sendKeepalive s w).1.1 = None
                /\ new (sendKeepalive s w).1.1 = None
                /\ advertised (sendKeepalive s w).1.1 = default (advertised s) (new s)
                /\ closedConns (sendKeepalive s w).1.2 = c :: closedConns w
                /\ emitted w (sendKeepalive s w).1.2 = []).
Proof.
  destruct (closed s) eqn:Hcl.
  { rewrite (sendKeepalive_closed s w Hcl). simpl.
    repeat split; try done. }
  destruct (conn s) as [c|] eqn:Hc.
  2: { assert (sendKeepalive s w = (s, w, None)) as ->
         by (unfold sendKeepalive; by rewrite Hcl, Hc).
       simpl. repeat split; try done. }
  pose proof (write_wire c MKeepalive w) as Hw.
  pose proof (write_closedConns c MKeepalive w) as Hcc.
  destruct (write c MKeepalive w) as [w1 ok] eqn:Hwr. simpl in Hw, Hcc.
  destruct ok.
  - assert (sendKeepalive s w = (s, w1, None)) as ->
      by (unfold sendKeepalive; by rewrite Hcl, Hc, Hwr).
    simpl. repeat split; try done.
    + by intros [[=]|[=]].
    + intros c' [= <-] _. by apply emitted_app.
  - pose proof (abort_session s w1) as (Ac & An & Aa & _).
    pose proof (abort_world s w1) as (Aw & _ & _ & Acl). rewrite Hc in Acl.
    assert (sendKeepalive s w = (abort s w1, Some errSendKeepalive)) as ->.
    { unfold sendKeepalive. rewrite Hcl, Hc, Hwr. by destruct (abort s w1). }
    simpl. repeat split; try done.
    + by intros [[=]|[=]].
    + intros _. exists c. repeat split; try done; [congruence |].
      apply emitted_refl. by rewrite Aw, Hw, app_nil_r.
Qed.

(** X9. A tick ends the ticker exactly when the session is closed; on an
    open session the ticker goes on with the period it had, whether the
    keepalive was written, skipped for want of a connection, or failed. *)
Theorem ticker_ends_only_when_closed (d : Z) (s : Session) (w : World) :
  exists st s' w',
    sendKeepalives_step Tick (Some d) s w = Some (st, s', w')
    /\ (st = TickerDone <-> closed s = true)
    /\ (closed s = false -> st = TickerRuns (Some d)).
Proof.
  simpl. destruct (closed s) eqn:Hcl.
  - rewrite (sendKeepalive_closed s w Hcl). by eexists _, _, _.
  - assert (Hne : (sendKeepalive s w).2 <> Some errClosed).
    { unfold sendKeepalive. rewrite Hcl. destruct (conn s) as [c|]; [| done].
      destruct (write c MKeepalive w) as [w1 [|]]; [done |].
      by destruct (abort s w1). }
    destruct (sendKeepalive s w) as [[s1 w1] [e|]]; simpl in Hne;
      [destruct e; try done |];
      (eexists _, _, _; split; [done |]; split; [by split | done]).
Qed.

(** X10. On a published hold time the ticker panics, in [time.NewTicker],
    exactly when the hold time is not zero and less than three
    nanoseconds, negative ones included; it never ends there. *)
Theorem ticker_panics_on_tiny_hold (t : option Z) (s : Session) (w : World) :
  newHoldTime s = true ->
  (ticker_after (sendKeepalives_step HoldPublished t s w) = Some TickerPanics
   <-> (actualHoldTime s <> 0 /\ actualHoldTime s < 3)%Z)
  /\ ticker_after (sendKeepalives_step HoldPublished t s w) <> Some TickerDone.
Proof.
  intros Hs. simpl. rewrite Hs. unfold ticker_after. simpl.
  destruct (actualHoldTime s =? 0)%Z eqn:Hz.
  - apply Z.eqb_eq in Hz. split; [| done]. split; [done | lia].
  - apply Z.eqb_neq in Hz. unfold NewTicker.
    destruct (0 <? actualHoldTime s ÷ 3)%Z eqn:Hq.
    + apply Z.ltb_lt in Hq. split; [| done]. split; [done |].
      intros [_ Hlt]. exfalso.
      destruct (decide (0 <= actualHoldTime s)%Z).
      * rewrite Z.quot_div_nonneg in Hq by lia.
        assert (actualHoldTime s / 3 = 0)%Z by (apply Z.div_small; lia). lia.
      * pose proof (Z.quot_opp_l (- actualHoldTime s) 3 ltac:(lia)) as Ho.
        rewrite Z.opp_involutive in Ho.
        pose proof (Z.quot_pos (- actualHoldTime s) 3 ltac:(lia) ltac:(lia)). lia.
    + apply Z.ltb_ge in Hq. split; [| done]. split; [| done]. intros _. split; [done |].
      destruct (decide (actualHoldTime s < 3)%Z); [done |]. exfalso.
      rewrite Z.quot_div_nonneg in Hq by lia.
      pose proof (Z.div_str_pos (actualHoldTime s) 3 ltac:(lia)). lia.
Qed.

End CloseFacts.

(** ** Invariants of the writer *)

(** A property of the session and the world that the elementary steps
    keep is kept by every event, every pass and the whole writer. *)
Section Invariant.
Context `{GoRuntime}.
Variable I : Session -> World -> Prop.
Hypothesis I_write : forall s w c m, I s w -> I s (write c m w).1.
Hypothesis I_range : forall s w m, I s w -> I s (next_range m w).2.
Hypothesis I_abort : forall s w, I s w -> I (abort s w).1 (abort s w).2.
Hypothesis I_promote : forall s w n, I s w -> new s = Some n -> I (promote s n) w.
Hypothesis I_Set : forall s w advs, I s w -> I (Session_Set s advs).1 w.
Hypothesis I_closed : forall s w, I s w -> I (with_closed s true) w.
Hypothesis I_hold : forall s w, I s w -> I (with_hold s (actualHoldTime s) false) w.
Hypothesis I_stale : forall s w c, I s w -> conn s <> Some c -> I s (closeConn c w).

Lemma inv_send_each cn a skip l s w : I s w -> I s (send_each cn a skip l w).1.
Proof.
  revert w. induction l as [|[c adv] l IH]; intros w Hi; simpl; [done |].
  destruct (skip c adv); [by apply IH |].
  pose proof (I_write s w cn (MUpdate a adv) Hi) as Hw.
  destruct (write cn (MUpdate a adv) w) as [w1 [|]]; simpl in *; [by apply IH | done].
Qed.

Lemma inv_sendKeepalive s w : I s w -> I (sendKeepalive s w).1.1 (sendKeepalive s w).1.2.
Proof.
  intros Hi. unfold sendKeepalive. destruct (closed s); [done |].
  destruct (conn s) as [c|]; [| done].
  pose proof (I_write s w c MKeepalive Hi) as Hw.
  destruct (write c MKeepalive w) as [w1 [|]]; simpl in *; [done |].
  pose proof (I_abort s w1 Hw). by destruct (abort s w1).
Qed.

Lemma inv_run_event e s w : I s w -> I (run_event e s w).1 (run_event e s w).2.
Proof.
  intros Hi. destruct e as [advs| | | |c|]; simpl; try done.
  - by apply I_Set.
  - by apply I_abort, I_closed.
  - pose proof (inv_sendKeepalive s w Hi). by destruct (sendKeepalive s w) as [[? ?] ?].
  - by apply I_hold.
  - unfold consumeBGP_exit. case_bool_decide; [by apply I_abort | by apply I_stale].
Qed.

Lemma inv_run_events evs s w : I s w -> I (run_events evs s w).1 (run_events evs s w).2.
Proof.
  revert s w. induction evs as [|e evs IH]; intros s w Hi; simpl; [done |].
  pose proof (inv_run_event e s w Hi). destruct (run_event e s w). by apply IH.
Qed.

Lemma inv_wait evs s w : I s w -> I (wait evs s w).1.2 (wait evs s w).2.
Proof.
  revert s w. induction evs as [|b evs IH]; intros s w Hi; simpl.
  - by destruct (new s), (conn s).
  - destruct (new s); [done |]. destruct (conn s); [| done].
    pose proof (inv_run_events b s w Hi). destruct (run_events b s w). by apply IH.
Qed.

Lemma inv_diff a cn n s w :
  I s w -> new s = Some n -> I (diff a cn n s w).1.1 (diff a cn n s w).1.2.
Proof.
  intros Hi Hn. unfold diff.
  pose proof (I_range s w n Hi) as H0.
  destruct (next_range n w) as [ln w0]. simpl in H0.
  pose proof (inv_send_each cn a (up_to_date (advertised s)) ln s w0 H0) as H1.
  destruct (send_each cn a _ ln w0) as [w1 [c|]]; simpl in H1.
  - pose proof (I_abort s w1 H1). by destruct (abort s w1).
  - pose proof (I_range s w1 (advertised s) H1) as H2.
    destruct (next_range (advertised s) w1) as [la w2]. simpl in H2.
    destruct (0 <? _); [| by apply I_promote].
    pose proof (I_write s w2 cn (MWithdraw (withdrawals la n)) H2) as H3.
    destruct (write cn _ w2) as [w3 [|]]; simpl in H3; [by apply I_promote |].
    pose proof (I_abort s w3 H3). by destruct (abort s w3).
Qed.

Lemma inv_first_pass s w : I s w -> I (first_pass s w).1.1 (first_pass s w).1.2.
Proof.
  intros Hi. unfold first_pass.
  set (s1 := match new s with Some n => promote s n | None => s end).
  assert (H1 : I s1 w) by (subst s1; destruct (new s) eqn:Hn; [by apply I_promote | done]).
  pose proof (I_range s1 w (advertised s1) H1) as H2.
  destruct (next_range (advertised s1) w) as [l w0]. simpl in H2.
  destruct (conn s1) as [cn|]; [| by destruct l].
  pose proof (inv_send_each cn (wire_asn s) (fun _ _ => false) l s1 w0 H2) as H3.
  destruct (send_each cn _ _ l w0) as [w1 [c|]]; simpl in H3; [| done].
  pose proof (I_abort s1 w1 H3). by destruct (abort s1 w1).
Qed.

Lemma inv_steady fuel a evs s w :
  I s w -> I (steady fuel a evs s w).1.1 (steady fuel a evs s w).1.2.
Proof.
  revert evs s w. induction fuel as [|fuel IH]; intros evs s w Hi; simpl; [done |].
  pose proof (inv_wait evs s w Hi) as Hw.
  destruct (wait evs s w) as [[[evs1|] s1] w1]; simpl in Hw; [| done].
  destruct (closed s1); [done |]. destruct (conn s1) as [cn|]; [| done].
  destruct (new s1) as [n|] eqn:Hn; [| by apply IH].
  pose proof (inv_diff a cn n s1 w1 Hw Hn) as Hd.
  destruct (diff a cn n s1 w1) as [[s2 w2] [e|]]; simpl in Hd; [done | by apply IH].
Qed.

Lemma inv_sendUpdates fuel evs s w :
  I s w -> I (sendUpdates fuel evs s w).1.1 (sendUpdates fuel evs s w).1.2.
Proof.
  intros Hi. unfold sendUpdates. pose proof (inv_first_pass s w Hi) as Hf.
  destruct (first_pass s w) as [[s1 w1] [o|]]; simpl in Hf; [done |].
  by apply inv_steady.
Qed.

End Invariant.

Section WriterInvariants.
Context `{GoRuntime}.

Lemma keeps_refl s : keeps s s.
Proof. by split. Qed.

Lemma keeps_trans s1 s2 s3 : keeps s1 s2 -> keeps s2 s3 -> keeps s1 s3.
Proof. intros [C1 D1] [C2 D2]. split; [congruence | auto]. Qed.

Lemma keeps_abort s w : keeps s (abort s w).1.
Proof. unfold abort, keeps. by destruct s as [? ? ? ? ? ? ? [c|] ? ? [n|]]. Qed.

Lemma keeps_Set s advs : keeps s (Session_Set s advs).1.
Proof. unfold Session_Set. destruct (Set_loop advs ∅); by split. Qed.

Local Ltac keeps_step :=
  intros;
  first [ assumption
        | apply keeps_refl
        | eapply keeps_trans; [eassumption |];
          first [apply keeps_abort | apply keeps_Set | by split] ].

Lemma keeps_sendUpdates fuel evs s w : keeps s (sendUpdates fuel evs s w).1.1.
Proof. apply (inv_sendUpdates (fun s' _ => keeps s s')); keeps_step. Qed.

Lemma keeps_run_events evs s w : keeps s (run_events evs s w).1.
Proof. apply (inv_run_events (fun s' _ => keeps s s')); keeps_step. Qed.

Lemma keeps_connect p s w : keeps s (connect p s w).1.1.
Proof.
  unfold connect. destruct (dialed p) as [c|]; [| apply keeps_refl].
  destruct (write c _ w) as [w1 [|]]; simpl; [| apply keeps_refl].
  destruct (peerOpen p) as [[a rh]|]; [| apply keeps_refl].
  destruct (negb _); [apply keeps_refl |].
  destruct (write c MKeepalive w1) as [w2 [|]]; simpl; [by split | apply keeps_refl].
Qed.

(** How a call of the loop of the writer ends. *)
Lemma steady_outcome fuel a evs s w :
  match (steady fuel a evs s w).2 with
  | Returned None =>
      conn (steady fuel a evs s w).1.1 = None /\ closed (steady fuel a evs s w).1.1 = false
  | Returned (Some errClosed) => closed (steady fuel a evs s w).1.1 = true
  | Returned (Some _) =>
      conn (steady fuel a evs s w).1.1 = None /\ new (steady fuel a evs s w).1.1 = None
  | Parked =>
      new (steady fuel a evs s w).1.1 = None /\ is_Some (conn (steady fuel a evs s w).1.1)
  | Panicked => False
  | Exhausted => True
  end.
Proof.
  revert evs s w. induction fuel as [|fuel IH]; intros evs s w; simpl; [done |].
  assert (Hpark : forall evs s w s1 w1, wait evs s w = (None, s1, w1) ->
             new s1 = None /\ is_Some (conn s1)).
  { clear. intros evs. induction evs as [|e evs IH]; intros s w s1 w1; simpl.
    - destruct (new s) eqn:Hn; [done |]. destruct (conn s) eqn:Hc; [| done].
      intros [= <- <-]. by split; [| eexists].
    - destruct (new s); [done |]. destruct (conn s); [| done].
      destruct (run_events e s w). apply IH. }
  destruct (wait evs s w) as [[[evs1|] s1] w1] eqn:Hw; simpl; [| by eapply Hpark].
  destruct (closed s1) eqn:Hcl; [done |].
  destruct (conn s1) as [cn|] eqn:Hc; [| done].
  destruct (new s1) as [n|] eqn:Hn; [| apply IH].
  pose proof (diff_cases a cn n s1 w1) as Hd.
  pose proof (abort_session s1 w1) as (Ac & An & _).
  destruct (diff a cn n s1 w1) as [[s2 w2] [e|]]; simpl in *; [| apply IH].
  destruct Hd as [(? & _)|[(c & ? & ? & [= ->] & _ & _ & -> & _)|([= ->] & _ & -> & _)]]; done.
Qed.

End WriterInvariants.

Section WriterInvariantClaims.
Context `{GoRuntime}.

(** X11. While the writer runs, whatever [Set], [Close], the ticker and
    the readers do in between, the connection of the session is never a
    socket that has been closed. *)
Theorem writer_connection_stays_open
  (fuel : nat) (evs : list (list Event)) (s : Session) (w : World) :
  live_open s w ->
  live_open (sendUpdates fuel evs s w).1.1 (sendUpdates fuel evs s w).1.2.
Proof.
  apply (inv_sendUpdates live_open); unfold live_open.
  - intros s' w' c m Hi c' Hc. rewrite write_closedConns. by apply Hi.
  - intros s' w' m Hi c' Hc. by apply Hi.
  - intros s' w' Hi c' Hc. by destruct (abort_session s' w') as (Hn & _); rewrite Hn in Hc.
  - intros s' w' n Hi _ c' Hc. by apply Hi.
  - intros s' w' advs Hi c' Hc. apply Hi. revert Hc. unfold Session_Set.
    by destruct (Set_loop advs ∅).
  - intros s' w' Hi c' Hc. by apply Hi.
  - intros s' w' Hi c' Hc. by apply Hi.
  - intros s' w' c Hi Hne c' Hc. simpl. apply not_elem_of_cons. split; [congruence | by apply Hi].
Qed.

Lemma well_keyed_keyed m advs :
  well_keyed m -> Forall valid advs -> well_keyed (keyed m advs).
Proof.
  revert m. induction advs as [|x advs IH]; intros m Hm Hv; simpl; [done |].
  apply Forall_cons in Hv as [Hx Hv]. apply IH; [| done].
  intros c adv. destruct (decide (IPNet_String (Prefix x) = c)) as [Heq|Hne].
  - subst c. rewrite lookup_insert_eq. by intros [= <-].
  - rewrite lookup_insert_ne by done. apply Hm.
Qed.

Lemma well_keyed_empty : well_keyed ∅.
Proof. intros c adv. by rewrite lookup_empty. Qed.

Lemma well_formed_abort s w : well_formed s -> well_formed (abort s w).1.
Proof.
  intros [Ha Hn]. unfold abort, well_formed.
  destruct s as [? ? ? ? ? ? ? [c|] ? ? [n|]]; simpl in *; split; try done; by apply Hn.
Qed.

Lemma well_formed_Set s advs : well_formed s -> well_formed (Session_Set s advs).1.
Proof.
  intros [Ha Hn]. unfold Session_Set.
  destruct (Set_loop_spec advs ∅) as [[Hv ->]|[_ [e ->]]]; [| done].
  split; [done |]. simpl. intros n [= <-].
  by apply well_keyed_keyed; [apply well_keyed_empty |].
Qed.

(** X12. The keys of [advertised] and of the pending set are always the
    texts of the prefixes of their values, and every value has passed the
    checks of [Set] (IPv4 prefix and next hop, at most 63 communities):
    the writer and all that runs beside it keep this. *)
Theorem writer_keeps_sets_well_keyed
  (fuel : nat) (evs : list (list Event)) (s : Session) (w : World) :
  well_formed s ->
  well_formed (sendUpdates fuel evs s w).1.1.
Proof.
  apply (inv_sendUpdates (fun s' _ => well_formed s')); try done.
  - intros s' w'. apply well_formed_abort.
  - intros s' _ n [Ha Hn] Hnew. split; [by apply Hn | done].
  - intros s' _ advs. apply well_formed_Set.
Qed.

Lemma sendUpdates_outcome evs s w :
  match (sendUpdates (length evs + 2) evs s w).2 with
  | Returned (Some errClosed) => closed (sendUpdates (length evs + 2) evs s w).1.1 = true
  | Parked =>
      new (sendUpdates (length evs + 2) evs s w).1.1 = None
      /\ is_Some (conn (sendUpdates (length evs + 2) evs s w).1.1)
  | Exhausted => False
  | _ => True
  end.
Proof.
  pose proof (sendUpdates_enough_fuel evs s w) as Hfuel.
  unfold sendUpdates in *.
  assert (Hf : match (first_pass s w).2 with
               | Some (Returned (Some (errSendUpdate _))) | Some Panicked | None => True
               | _ => False
               end).
  { unfold first_pass, next_range.
    set (s1 := match new s with Some n => promote s n | None => s end).
    destruct (conn s1) as [cn|].
    - destruct (send_each _ _ _ _ _) as [w1 [c|]]; [| done]. by destruct (abort s1 w1).
    - by destruct (range _ _). }
  destruct (first_pass s w) as [[s1 w1] [o|]]; simpl in *.
  - destruct o as [[[]|]| | |]; done.
  - pose proof (steady_outcome (length evs + 2) (wire_asn s) evs s1 w1) as Ho.
    destruct (steady (length evs + 2) (wire_asn s) evs s1 w1) as [[s2 w2] o]. simpl in *.
    destruct o as [[[]|]| | |]; done.
Qed.

(** X13. [run] changes none of the local ASN, router ID, peer address,
    peer ASN and configured hold time, and never reopens a closed session,
    through any number of attempts, sessions and events. *)
Theorem run_keeps_config (rounds : list Round) (slept : Z) (s : Session) (w : World) :
  config (run rounds slept s w).1.1.1 = config s
  /\ (closed s = true -> closed (run rounds slept s w).1.1.1 = true).
Proof.
  change (keeps s (run rounds slept s w).1.1.1).
  revert slept s w. induction rounds as [|r rounds IH]; intros slept s w; simpl;
    [apply keeps_refl |].
  pose proof (keeps_run_events (idle r) s w) as K0.
  destruct (run_events (idle r) s w) as [s0 w0]. simpl in K0.
  pose proof (keeps_connect (attempt r) s0 w0) as K1.
  destruct (connect (attempt r) s0 w0) as [[s1 w1] [e|]]; simpl in K1.
  { eapply keeps_trans; [| apply IH]. by eapply keeps_trans. }
  pose proof (keeps_run_events (mid r) s1 w1) as K2.
  destruct (run_events (mid r) s1 w1) as [s2 w2]. simpl in K2.
  pose proof (keeps_sendUpdates (length (during r) + 2) (during r) s2 w2) as K3.
  destruct (sendUpdates _ (during r) s2 w2) as [[s3 w3] o]. simpl in K3.
  pose proof (keeps_trans _ _ _ (keeps_trans _ _ _ (keeps_trans _ _ _ K0 K1) K2) K3) as K.
  destruct o as [[[]|]| | |]; simpl; try done; (eapply keeps_trans; [exact K | apply IH]).
Qed.

(** X14. [run] returns only on a closed session; when it is left in a
    writer that waits for good, nothing is pending and the connection is
    live; and the fuel given to the writer always suffices. *)
Theorem run_returns_only_when_closed (rounds : list Round) (slept : Z) (s : Session) (w : World) :
  match (run rounds slept s w).2 with
  | RunReturned => closed (run rounds slept s w).1.1.1 = true
  | RunParked =>
      new (run rounds slept s w).1.1.1 = None
      /\ is_Some (conn (run rounds slept s w).1.1.1)
  | RunExhausted => False
  | _ => True
  end.
Proof.
  revert slept s w. induction rounds as [|r rounds IH]; intros slept s w; simpl; [done |].
  destruct (run_events (idle r) s w) as [s0 w0].
  destruct (connect (attempt r) s0 w0) as [[s1 w1] [e|]]; [apply IH |].
  destruct (run_events (mid r) s1 w1) as [s2 w2].
  pose proof (sendUpdates_outcome (during r) s2 w2) as Ho.
  destruct (sendUpdates _ (during r) s2 w2) as [[s3 w3] o]. simpl in Ho.
  destruct o as [[[]|]| | |]; simpl; try done; apply IH.
Qed.

Lemma run_events_app evs1 evs2 s w :
  run_events (evs1 ++ evs2) s w
  = run_events evs2 (run_events evs1 s w).1 (run_events evs1 s w).2.
Proof.
  revert s w. induction evs1 as [|e evs1 IH]; intros s w; simpl; [done |].
  destruct (run_event e s w) as [s' w']. apply IH.
Qed.

(** X15. While the peer cannot be dialed, [run] sleeps the backoff of two
    seconds after each attempt and goes on retrying; it writes nothing of
    its own, and the session is changed by the other goroutines only. *)
Theorem run_backs_off_when_unreachable
  (rounds : list Round) (slept : Z) (s : Session) (w : World) :
  Forall (fun r => dialed (attempt r) = None) rounds ->
  run rounds slept s w
  = (run_events (concat (idle <$> rounds)) s w,
     (slept + 2 * second * Z.of_nat (length rounds))%Z, RunRetrying).
Proof.
  revert slept s w. induction rounds as [|r rounds IH]; intros slept s w Hall.
  - simpl. by rewrite Z.mul_0_r, Z.add_0_r.
  - apply Forall_cons in Hall as [Hr Hall]. cbn [run fmap list_fmap concat length].
    rewrite run_events_app. destruct (run_events (idle r) s w) as [s0 w0]. simpl.
    unfold connect. rewrite Hr. rewrite IH by done. unfold backoff.
    f_equal. f_equal. lia.
Qed.

End WriterInvariantClaims.

(** ** More on the passes of the writer *)

Section PassClaims.
Context `{GoRuntime}.

Lemma send_each_all_skipped cn a skip l w :
  (forall c adv, (c, adv) ∈ l -> skip c adv = true) ->
  send_each cn a skip l w = (w, None).
Proof.
  induction l as [|[c adv] l IH]; intros Hall; simpl; [done |].
  rewrite (Hall c adv) by by left. apply IH. intros c' adv' Hin. apply Hall. by right.
Qed.

Lemma withdrawals_none l (n : gmap string Advertisement) :
  (forall c adv, (c, adv) ∈ l -> is_Some (n !! c)) -> withdrawals l n = [].
Proof.
  induction l as [|[c adv] l IH]; intros Hall; simpl; [done |].
  destruct (Hall c adv) as [x ->]; [by left |]. apply IH.
  intros c' adv' Hin. apply (Hall c' adv'). by right.
Qed.

Lemma diff_held a cn (n : gmap string Advertisement) s w :
  (forall c adv, n !! c = Some adv -> up_to_date (advertised s) c adv = true) ->
  (forall c, is_Some (advertised s !! c) -> is_Some (n !! c)) ->
  diff a cn n s w
  = (promote s n, mkWorld (wire w) (closedConns w) (script w) (S (S (ranges w))), None).
Proof.
  intros Hheld Hkept. unfold diff, next_range.
  rewrite send_each_all_skipped.
  2: { intros c adv Hin. apply Hheld. by apply (elem_of_range (ranges w)). }
  simpl. rewrite withdrawals_none; [done |].
  intros c adv Hin. apply Hkept. apply elem_of_range in Hin. by eexists.
Qed.

Lemma up_to_date_refl (advd : gmap string Advertisement) c adv :
  advd !! c = Some adv -> up_to_date advd c adv = true.
Proof.
  intros Hl. unfold up_to_date. rewrite Hl, Equal_refl. simpl. by apply DeepEqual_eq.
Qed.

(** X16. A pending set whose every entry the peer already holds (same
    next hop and communities; the local preference may differ) and which
    drops no advertised prefix costs nothing: the diff attempts no write
    at all, so it cannot fail, closes nothing, and commits the pending set
    as [advertised].  Such is the advertised set itself, set again. *)
Theorem diff_of_held_set_is_silent (a : Z) (cn : Conn) (s : Session) (w : World) :
  (forall n : gmap string Advertisement,
      (forall c adv, n !! c = Some adv -> up_to_date (advertised s) c adv = true) ->
      (forall c, is_Some (advertised s !! c) -> is_Some (n !! c)) ->
      diff a cn n s w
      = (promote s n, mkWorld (wire w) (closedConns w) (script w) (S (S (ranges w))), None))
  /\ diff a cn (advertised s) s w
     = (promote s (advertised s),
        mkWorld (wire w) (closedConns w) (script w) (S (S (ranges w))), None).
Proof.
  split; [intros n; apply diff_held |].
  apply diff_held; [| done]. intros c adv. apply up_to_date_refl.
Qed.

Lemma announced_updates cn a l : announced (updates cn a l) = (fun p => Prefix p.2) <$> l.
Proof.
  unfold announced, updates. induction l as [|p l IH]; [done |].
  rewrite !fmap_cons. cbn [omap list_omap snd]. f_equal. exact IH.
Qed.

Lemma withdrawn_updates cn a l : withdrawn (updates cn a l) = [].
Proof.
  unfold withdrawn, updates. induction l as [|p l IH]; [done |].
  rewrite !fmap_cons. cbn [omap list_omap snd]. exact IH.
Qed.

Lemma announced_app l1 l2 : announced (l1 ++ l2) = announced l1 ++ announced l2.
Proof. unfold announced. apply omap_app. Qed.

Lemma withdrawn_app l1 l2 : withdrawn (l1 ++ l2) = withdrawn l1 ++ withdrawn l2.
Proof. unfold withdrawn. by rewrite omap_app, concat_app. Qed.

(** In a well-keyed map the prefix tells the entry. *)
Lemma well_keyed_inj (m : gmap string Advertisement) (p q : string * Advertisement) :
  well_keyed m -> p ∈ map_to_list m -> q ∈ map_to_list m ->
  Prefix p.2 = Prefix q.2 -> p = q.
Proof.
  destruct p as [c adv], q as [c' adv']. simpl.
  intros Hk Hp%elem_of_map_to_list Hq%elem_of_map_to_list Heq.
  destruct (Hk c adv Hp) as [<- _]. destruct (Hk c' adv' Hq) as [<- _].
  rewrite Heq in Hp. by simplify_eq.
Qed.

Lemma NoDup_prefixes (m : gmap string Advertisement) (l : list (string * Advertisement)) :
  well_keyed m -> NoDup l -> (forall p, p ∈ l -> p ∈ map_to_list m) ->
  NoDup ((fun p => Prefix p.2) <$> l).
Proof.
  intros Hk Hnd Hsub. apply NoDup_fmap_2_strong; [| done].
  intros p q Hp Hq. apply (well_keyed_inj m); auto.
Qed.

Lemma NoDup_range i (m : gmap string Advertisement) : NoDup (range i m).
Proof. rewrite (range_perm i m). apply NoDup_map_to_list. Qed.

(** X17. With well-keyed sets, one diff announces no prefix twice,
    withdraws no prefix twice, and never both announces and withdraws a
    prefix, whether it runs to its end or is cut short by a failed
    write. *)
Theorem diff_touches_each_prefix_once
  (a : Z) (cn : Conn) (n : gmap string Advertisement) (s : Session) (w : World) :
  well_keyed n -> well_keyed (advertised s) ->
  NoDup (announced (emitted w (diff a cn n s w).1.2)
         ++ withdrawn (emitted w (diff a cn n s w).1.2)).
Proof.
  intros Hn Ha.
  set (todo := to_send (up_to_date (advertised s)) (range (ranges w) n)).
  set (wdr := withdrawals (range (S (ranges w)) (advertised s)) n).
  assert (Htodo : forall sent rest, todo = sent ++ rest ->
            NoDup ((fun p => Prefix p.2) <$> sent)
            /\ forall p, p ∈ sent -> n !! p.1 = Some p.2).
  { intros sent rest Heq.
    assert (Hsub : forall p, p ∈ sent -> p ∈ map_to_list n).
    { intros [c adv] Hin.
      assert (Hin' : (c, adv) ∈ todo) by (rewrite Heq; apply elem_of_app; by left).
      apply elem_of_to_send in Hin' as [Hin' _].
      by apply elem_of_map_to_list, (elem_of_range (ranges w)). }
    split.
    - apply (NoDup_prefixes n); [done | | done].
      assert (Hnd : NoDup todo) by (apply NoDup_filter, NoDup_range).
      rewrite Heq in Hnd. by apply NoDup_app in Hnd as (? & _).
    - intros [c adv] Hin. by apply elem_of_map_to_list, Hsub. }
  assert (Hwdr : NoDup wdr /\ forall p, p ∈ wdr ->
            exists c adv, advertised s !! c = Some adv /\ n !! c = None /\ Prefix adv = p).
  { subst wdr. rewrite withdrawals_filter. split.
    - apply (NoDup_prefixes (advertised s)); [done | apply NoDup_filter, NoDup_range |].
      intros [c adv] [_ Hin]%list_elem_of_filter.
      by apply elem_of_map_to_list, (elem_of_range (S (ranges w))).
    - intros p ([c adv] & -> & [Hnone Hin]%list_elem_of_filter)%list_elem_of_fmap.
      apply elem_of_range in Hin. by exists c, adv. }
  assert (Hdisj : forall (sent : list (string * Advertisement)) p,
            (forall q, q ∈ sent -> n !! q.1 = Some q.2) ->
            p ∈ (fun q : string * Advertisement => Prefix q.2) <$> sent -> p ∈ wdr -> False).
  { intros sent p Hs ([c adv] & -> & Hin)%list_elem_of_fmap Hw.
    apply Hs in Hin. simpl in *.
    destruct (proj2 Hwdr _ Hw) as (c' & adv' & Hadv & Hnone & Heq).
    destruct (Hn c adv Hin) as [<- _]. destruct (Ha c' adv' Hadv) as [<- _].
    rewrite Heq in Hnone. congruence. }
  destruct (diff_cases a cn n s w)
    as [(_ & _ & _ & Hw)|[(c & sent & rest & _ & Hsplit & _ & _ & _ & Hw)|(_ & _ & _ & _ & Hw)]];
    apply emitted_app in Hw; rewrite Hw.
  - fold todo wdr. destruct (Htodo todo [] (eq_sym (app_nil_r todo))) as [Hnd Hs].
    rewrite announced_app, withdrawn_app, announced_updates, withdrawn_updates.
    destruct (decide (wdr = [])) as [Hempty|Hempty].
    + simpl. by rewrite !app_nil_r.
    + unfold announced, withdrawn. simpl. rewrite !app_nil_r.
      apply NoDup_app. split; [done |]. split; [| apply Hwdr].
      intros p Hp Hq. by eapply Hdisj.
  - destruct (Htodo sent rest Hsplit) as [Hnd _].
    by rewrite announced_updates, withdrawn_updates, app_nil_r.
  - fold todo. destruct (Htodo todo [] (eq_sym (app_nil_r todo))) as [Hnd _].
    by rewrite announced_updates, withdrawn_updates, app_nil_r.
Qed.

Lemma first_pass_quiet s w cn :
  conn s = Some cn -> script w = [] ->
  (first_pass s w).2 = None
  /\ emitted w (first_pass s w).1.2
     = updates cn (wire_asn s) (range (ranges w) (default (advertised s) (new s)))
  /\ advertised (first_pass s w).1.1 = default (advertised s) (new s)
  /\ new (first_pass s w).1.1 = None
  /\ conn (first_pass s w).1.1 = Some cn.
Proof.
  intros Hc Hs. unfold first_pass, next_range.
  set (s1 := match new s with Some n => promote s n | None => s end).
  assert (Hadv : advertised s1 = default (advertised s) (new s))
    by (subst s1; by destruct (new s)).
  assert (Hconn : conn s1 = Some cn) by (subst s1; by destruct (new s)).
  assert (Hnew : new s1 = None) by (subst s1; by destruct (new s) eqn:E).
  rewrite Hconn, Hadv.
  set (w0 := mkWorld _ _ _ _). set (l := range _ _).
  destruct (send_each_quiet cn (wire_asn s) (fun _ _ => false) l w0 Hs) as [Hnone _].
  destruct (send_each_spec cn (wire_asn s) (fun _ _ => false) l w0)
    as (_ & _ & sent & rest & Hsplit & Hwire & Hrest & _).
  destruct (send_each cn (wire_asn s) _ l w0) as [w1 failed]. simpl in *. subst failed.
  rewrite (Hrest eq_refl), app_nil_r in Hsplit. subst sent.
  assert (Hall : to_send (fun _ _ => false) l = l).
  { unfold to_send. clear. induction l as [|p l IH]; [done |].
    rewrite filter_cons, decide_True by done. by rewrite IH. }
  rewrite Hall in Hwire. simpl. repeat split; try done. by apply emitted_app.
Qed.

(** X18. After a successful attempt, closed session or not, the pass made
    on entry announces the whole set the session holds, a pending set
    taking the place of the advertised one: when no write fails it sends
    one UPDATE for each entry on the new connection and nothing else, and
    that set is then the advertised one. *)
Theorem reconnect_announces_everything (p : Attempt) (s : Session) (w : World) :
  (connect p s w).2 = None ->
  script (connect p s w).1.2 = [] ->
  exists c,
    dialed p = Some c
    /\ (first_pass (connect p s w).1.1 (connect p s w).1.2).2 = None
    /\ emitted (connect p s w).1.2 (first_pass (connect p s w).1.1 (connect p s w).1.2).1.2
       ≡ₚ (fun kv => (c, MUpdate (wire_asn s) kv.2))
           <$> map_to_list (default (advertised s) (new s))
    /\ advertised (first_pass (connect p s w).1.1 (connect p s w).1.2).1.1
       = default (advertised s) (new s)
    /\ new (first_pass (connect p s w).1.1 (connect p s w).1.2).1.1 = None.
Proof.
  intros Hok Hs.
  assert (Hc : exists c, dialed p = Some c /\ conn (connect p s w).1.1 = Some c
                         /\ advertised (connect p s w).1.1 = advertised s
                         /\ new (connect p s w).1.1 = new s
                         /\ wire_asn (connect p s w).1.1 = wire_asn s).
  { revert Hok. unfold connect. destruct (dialed p) as [c|]; [| done].
    destruct (write c _ w) as [w1 [|]]; simpl; [| done].
    destruct (peerOpen p) as [[a rh]|]; [| done].
    destruct (negb _); [done |].
    destruct (write c MKeepalive w1) as [w2 [|]]; simpl; [| done].
    intros _. by exists c. }
  destruct Hc as (c & Hd & Hconn & Hadv & Hnew & Hasn). exists c.
  destruct (first_pass_quiet _ _ c Hconn Hs) as (Hr & Hem & Ha & Hn & _).
  rewrite Hadv, Hnew, Hasn in *. repeat split; try done.
  rewrite Hem. unfold updates. by rewrite (range_perm _ _).
Qed.

End PassClaims.

(** ** The reader and the framing of messages *)

Lemma consumeBGP_loop_fuel fuel fuel' input :
  length input < fuel -> length input < fuel' ->
  consumeBGP_loop fuel input = consumeBGP_loop fuel' input.
Proof.
  revert fuel' input. induction fuel as [|fuel IH]; intros [|fuel'] input H1 H2; try lia.
  simpl. destruct (length input <? 19) eqn:Hshort; [done |].
  destruct (negb _); [done |]. apply Nat.ltb_ge in Hshort.
  apply IH; rewrite !length_drop; lia.
Qed.

Lemma marker_ok : forallb (Z.eqb 255) marker = true.
Proof. reflexivity. Qed.

Lemma forallb_marker l :
  length l = 16 -> forallb (Z.eqb 255) l = true -> l = marker.
Proof.
  intros Hlen Hall. do 16 (destruct l as [|? l]; [simpl in Hlen; lia |]).
  destruct l; [| simpl in Hlen; lia]. cbn [forallb] in Hall.
  rewrite !andb_true_iff in Hall. destruct_and!.
  repeat match goal with
         | Hx : (255 =? _)%Z = true |- _ => apply Z.eqb_eq in Hx; subst
         end.
  reflexivity.
Qed.

Lemma consumeBGP_loop_frame fuel type body rest :
  (Z.of_nat (19 + length body) < 65536)%Z ->
  consumeBGP_loop (S fuel) (frame type body ++ rest) = consumeBGP_loop fuel rest.
Proof.
  intros Hb. unfold frame, marker. cbn [replicate app consumeBGP_loop length].
  destruct (_ <? 19) eqn:Hlt; [apply Nat.ltb_lt in Hlt; lia |].
  cbn [take forallb drop lookup list_lookup default negb].
  rewrite !Z.eqb_refl. cbn [andb negb default].
  unfold be16.
  set (n := Z.of_nat (19 + length body)).
  assert (Hn : (0 <= n < 65536)%Z) by lia.
  rewrite (Z.mod_small (n / 256) 256).
  2: { split; [apply Z.div_pos; lia | apply Z.div_lt_upper_bound; lia]. }
  unfold id. rewrite drop_0.
  replace (Z.to_nat (n / 256 * 256 + n mod 256 - 19)) with (length body).
  2: { pose proof (Z.div_mod n 256 ltac:(lia)). lia. }
  by rewrite drop_app_length.
Qed.

Lemma consumeBGP_loop_stream msgs tail :
  Forall (fun m : Z * list Z => (Z.of_nat (19 + length m.2) < 65536)%Z) msgs ->
  consumeBGP_loop (S (length (stream msgs ++ tail))) (stream msgs ++ tail)
  = consumeBGP_loop (S (length tail)) tail.
Proof.
  induction msgs as [|[type body] msgs IH]; intros Hall; [done |].
  apply Forall_cons in Hall as [Hm Hall]. simpl in Hm.
  unfold stream in *. rewrite fmap_cons. cbn [concat fst snd]. rewrite <- app_assoc.
  rewrite consumeBGP_loop_frame by done. rewrite <- (IH Hall).
  apply consumeBGP_loop_fuel; [| lia].
  rewrite !length_app. unfold frame, marker. rewrite !length_app. simpl. lia.
Qed.

(** X19. The reader goes through any stream of well-framed messages
    (all-ones marker, 16-bit length counting the 19 bytes of the header)
    of whatever type and body, and stops only where the stream does: at
    its end or in a header cut short.  It stops on the first header whose
    marker is not all ones.  Either way it then runs its exit path. *)
Theorem reader_follows_the_framing
  (c : Conn) (msgs : list (Z * list Z)) (tail : list Z) (s : Session) (w : World) :
  Forall (fun m : Z * list Z => (Z.of_nat (19 + length m.2) < 65536)%Z) msgs ->
  (length tail < 19 ->
   consumeBGP c (stream msgs ++ tail) s w = Some (StopRead, consumeBGP_exit c s w))
  /\ (19 <= length tail -> take 16 tail <> marker ->
      consumeBGP c (stream msgs ++ tail) s w = Some (StopMarker, consumeBGP_exit c s w)).
Proof.
  intros Hall. unfold consumeBGP. rewrite (consumeBGP_loop_stream msgs tail Hall).
  split.
  - intros Hshort. simpl. apply Nat.ltb_lt in Hshort. by rewrite Hshort.
  - intros Hlong Hbad. simpl.
    destruct (length tail <? 19) eqn:Hs; [apply Nat.ltb_lt in Hs; lia |].
    destruct (forallb (Z.eqb 255) (take 16 tail)) eqn:Hm; [| done].
    exfalso. apply Hbad, forallb_marker; [| done]. rewrite length_take. lia.
Qed.

(** ** The FRR queries *)

Module FrrFacts.
Import Frr.

Lemma Exec_answer cmd args sh a rest :
  answers sh = a :: rest ->
  Exec cmd args sh = (mkShell (log sh ++ [cmd :: args]) rest, a).
Proof. intros Ha. unfold Exec. by rewrite Ha. Qed.

Lemma str_app_assoc (s1 s2 s3 : string) : (s1 +:+ s2) +:+ s3 = s1 +:+ (s2 +:+ s3).
Proof.
  induction s1 as [|a s1 IH]; [done |].
  change (String a ((s1 +:+ s2) +:+ s3) = String a (s1 +:+ (s2 +:+ s3))).
  by rewrite IH.
Qed.

Lemma str_app_nil_r (s : string) : s +:+ EmptyString = s.
Proof.
  induction s as [|a s IH]; [done |].
  change (String a (s +:+ EmptyString) = String a s). by rewrite IH.
Qed.

(** X20. [ContainsCommunity] runs one command and returns an error only
    when that command fails, and then the error of the command itself.
    When the command succeeds it returns nil whether the community occurs
    in the output or not: the error it builds for a missing community
    wraps a nil error, and [errors.Wrapf] of nil is nil. *)
Theorem ContainsCommunity_never_reports_absence (community : string) (sh : Shell) :
  log (ContainsCommunity community sh).1
  = log sh ++ [["vtysh"; "-c"; "show bgp community-info"]]
  /\ (ContainsCommunity community sh).2
     = (Exec "vtysh" ["-c"; "show bgp community-info"] sh).2.2
  /\ (forall out rest, answers sh = (out, None) :: rest ->
        (ContainsCommunity community sh).2 = None).
Proof.
  unfold ContainsCommunity.
  assert (Hlog : log (Exec "vtysh" ["-c"; "show bgp community-info"] sh).1
                 = log sh ++ [["vtysh"; "-c"; "show bgp community-info"]]).
  { unfold Exec. by destruct (answers sh). }
  split; [| split].
  - destruct (Exec _ _ sh) as [sh1 [res [e|]]]; simpl in *; [done |].
    by destruct (negb _).
  - destruct (Exec _ _ sh) as [sh1 [res [e|]]]; simpl; [done |]. by destruct (negb _).
  - intros out rest Ha. rewrite (Exec_answer _ _ _ _ _ Ha). by destruct (negb _).
Qed.

Lemma dump_files_ok files res sh oks rest :
  answers sh = oks ++ rest -> length oks = length files -> Forall succeeded oks ->
  dump_files files res sh
  = (mkShell (log sh ++ cats files) rest, (res +:+ sections files (fst <$> oks), None)).
Proof.
  revert res sh oks. induction files as [|f files IH]; intros res sh oks Ha Hlen Hok.
  - destruct oks; [| done]. simpl in *. destruct sh as [l a]. simpl in *. subst a.
    by rewrite app_nil_r, str_app_nil_r.
  - destruct oks as [|[out err] oks]; [done |]. apply Forall_cons in Hok as [Ho Hok].
    unfold succeeded in Ho. simpl in Ho. subst err. simpl in Hlen.
    cbn [dump_files]. rewrite (Exec_answer _ _ _ _ _ Ha).
    rewrite (IH _ _ oks) by (simpl; auto; lia). simpl.
    rewrite <- app_assoc. f_equal. f_equal. unfold file_section.
    by rewrite !str_app_assoc.
Qed.

Lemma dump_files_fail files res sh oks out e rest :
  answers sh = oks ++ (out, Some e) :: rest -> length oks < length files ->
  Forall succeeded oks ->
  exists msg,
    dump_files files res sh
    = (mkShell (log sh ++ take (S (length oks)) (cats files)) rest,
       (EmptyString, Some (Wrapped msg e))).
Proof.
  revert res sh oks. induction files as [|f files IH]; intros res sh oks Ha Hlen Hok;
    [simpl in Hlen; lia |].
  destruct oks as [|[out' err] oks].
  - cbn [dump_files]. rewrite (Exec_answer _ _ _ _ _ Ha). simpl. by eexists.
  - apply Forall_cons in Hok as [Ho Hok]. unfold succeeded in Ho. simpl in Ho. subst err.
    rewrite <- app_comm_cons in Ha.
    cbn [dump_files]. rewrite (Exec_answer _ _ _ _ _ Ha).
    destruct (IH ((res +:+ "####### Dumping file " +:+ f +:+ nl) +:+ out')
                (mkShell (log sh ++ [["cat"; f]]) (oks ++ (out, Some e) :: rest)) oks)
      as [msg Hd]; [done | simpl in *; lia | done |].
    exists msg. rewrite Hd. simpl. by rewrite <- app_assoc.
Qed.

(** X21. When all its commands succeed, [RawDump] has run, in this
    order, the running-config query, one [cat] per file in the order
    given, the neighbor query and the BFD query, and nothing else; its
    text is the four headed sections in that order, each followed by the
    output of its command, the files each under their own heading. *)
Theorem RawDump_layout (files : list string) (sh : Shell)
  (conf nbr bfd : string) (outs : list string) (rest : list (string * option error)) :
  length outs = length files ->
  answers sh
  = (conf, None) :: ((fun o => (o, None)) <$> outs) ++ [(nbr, None); (bfd, None)] ++ rest ->
  RawDump files sh
  = (mkShell (log sh ++ queries files) rest,
     ("####### Show running config" +:+ nl +:+ conf
      +:+ sections files outs
      +:+ "####### BGP Neighbors" +:+ nl +:+ nbr
      +:+ "####### BFD Peers" +:+ nl +:+ bfd,
      None)).
Proof.
  intros Hlen Ha. unfold RawDump. rewrite (Exec_answer _ _ _ _ _ Ha).
  rewrite (dump_files_ok files _ _ ((fun o => (o, None)) <$> outs)
             ([(nbr, None); (bfd, None)] ++ rest)); simpl;
    [| done | by rewrite length_fmap | by apply Forall_fmap, Forall_forall].
  assert (Houts : ((fun o : string => (o, @None error)) <$> outs).*1 = outs).
  { clear. induction outs as [|o outs IH]; [done |]. rewrite !fmap_cons. by rewrite IH. }
  rewrite Houts. unfold queries. f_equal.
  - f_equal. rewrite <- !app_assoc. done.
  - f_equal. by rewrite !str_app_assoc.
Qed.

(** X22. When a command of [RawDump] fails, the dump stops there: no
    later command is run, the text returned is empty, whatever had been
    collected, and the error wraps the error of that command. *)
Theorem RawDump_stops_at_first_failure (files : list string) (sh : Shell)
  (oks : list (string * option error)) (out : string) (e : error)
  (rest : list (string * option error)) :
  answers sh = oks ++ (out, Some e) :: rest ->
  Forall succeeded oks ->
  length oks < length (queries files) ->
  exists msg,
    RawDump files sh
    = (mkShell (log sh ++ take (S (length oks)) (queries files)) rest,
       (EmptyString, Some (Wrapped msg e))).
Proof.
  intros Ha Hok Hlen. unfold RawDump, queries in *.
  rewrite length_cons, length_app in Hlen. simpl in Hlen. unfold cats in Hlen.
  rewrite length_fmap in Hlen.
  destruct oks as [|[conf err] oks].
  { rewrite (Exec_answer _ _ _ _ _ Ha). simpl. by eexists. }
  apply Forall_cons in Hok as [Ho Hok]. unfold succeeded in Ho. simpl in Ho. subst err.
  rewrite <- app_comm_cons in Ha.
  rewrite (Exec_answer _ _ _ _ _ Ha). simpl in Hlen.
  destruct (decide (length oks < length files)) as [Hin|Hout].
  { destruct (dump_files_fail files (("####### Show running config" +:+ nl) +:+ conf)
                (mkShell (log sh ++ [["vtysh"; "-c"; "show running-config"]])
                   (oks ++ (out, Some e) :: rest)) oks out e rest)
      as [msg Hd]; [done .. |].
    exists msg. rewrite Hd. unfold cats. simpl.
    rewrite <- app_assoc. simpl.
    rewrite take_app_le; [done |]. rewrite length_fmap. lia. }
  assert (Hsplit : exists oks1 oks2, oks = oks1 ++ oks2 /\ length oks1 = length files
                                     /\ length oks2 < 2).
  { exists (take (length files) oks), (drop (length files) oks).
    rewrite take_drop, length_take, length_drop. repeat split; lia. }
  destruct Hsplit as (oks1 & oks2 & -> & Hl1 & Hl2).
  apply Forall_app in Hok as [Hok1 Hok2].
  rewrite (dump_files_ok files _ _ oks1 (oks2 ++ (out, Some e) :: rest));
    [| by simpl; rewrite <- app_assoc | done | done].
  simpl. rewrite length_app.
  destruct oks2 as [|[nbr err] oks2].
  { rewrite (Exec_answer _ _ _ (out, Some e) rest) by done. unfold cats. simpl. eexists.
    rewrite <- !app_assoc. simpl.
    rewrite take_app_ge; rewrite length_fmap; [| lia].
    by replace (S (length oks1 + 0) - length files) with 1 by lia. }
  apply Forall_cons in Hok2 as [Ho Hok2]. unfold succeeded in Ho. simpl in Ho. subst err.
  destruct oks2; [| simpl in Hl2; lia].
  rewrite (Exec_answer _ _ _ (nbr, None) ((out, Some e) :: rest)) by done.
  rewrite (Exec_answer _ _ _ (out, Some e) rest) by done. unfold cats. simpl. eexists.
  rewrite <- !app_assoc. simpl.
  rewrite take_app_ge; rewrite length_fmap; [| lia].
  by replace (S (length oks1 + 1) - length files) with 2 by lia.
Qed.

End FrrFacts.

(** ** The further properties on concrete sessions *)

(** A peer that announces AS 64999 instead of 65002. *)
Lemma connect_failure_keeps_session_witness :
  (connect Scenario.wrong_peer Example.idle Example.w0).1.1 = Example.idle
  /\ closedConns (connect Scenario.wrong_peer Example.idle Example.w0).1.2 = [8].
Proof.
  exact (connect_failure_keeps_session Scenario.wrong_peer Example.idle Example.w0
           (errPeerASN 64999 65002) eq_refl).
Defined.

Lemma connect_handshake_witness :
  exists c,
    conn (connect Scenario.answer Example.idle Example.w0).1.1 = Some c
    /\ emitted Example.w0 (connect Scenario.answer Example.idle Example.w0).1.2
       = [(c, MOpen 65001 [10; 0; 0; 1]%Z (90 * second)); (c, MKeepalive)].
Proof.
  destruct (connect_handshake Scenario.answer Example.idle Example.w0 eq_refl)
    as (c & _ & Hc & Hw & _).
  exists c. split; [exact Hc | exact Hw].
Defined.

Lemma connect_rejects_other_asn_witness :
  (connect Scenario.wrong_peer Example.idle Example.w0).1.1 = Example.idle
  /\ 8 ∈ closedConns (connect Scenario.wrong_peer Example.idle Example.w0).1.2
  /\ (8, MKeepalive) ∉ emitted Example.w0 (connect Scenario.wrong_peer Example.idle Example.w0).1.2.
Proof.
  destruct (connect_rejects_other_asn Scenario.wrong_peer Example.idle Example.w0
              8 64999%Z (30 * second)%Z eq_refl eq_refl) as (_ & Hs & Hc & Hk).
  - simpl. lia.
  - split; [exact Hs |]. split; [exact Hc | exact Hk].
Defined.

(** Scenario 6 of the spec: after [Close], [Set] is accepted and nothing
    is written. *)
Lemma closed_session_is_silent_witness :
  let r := run_events (H := Example.runtime)
             [EvSet [Example.A2]; EvTick; EvReaderExit 3; EvClose]
             Scenario.shut Example.w0 in
  closed r.1 = true /\ conn r.1 = None /\ wire r.2 = [].
Proof.
  intros r.
  destruct (closed_session_is_silent (H := Example.runtime)
              [EvSet [Example.A2]; EvTick; EvReaderExit 3; EvClose]
              Scenario.shut Example.w0 eq_refl eq_refl) as (Hcl & Hc & Hw & _).
  split; [exact Hcl |]. split; [exact Hc | exact Hw].
Defined.

(** [Close] and then a [Set] that gets the lock before the woken writer:
    the writer returns [errClosed] and the set stays pending. *)
Lemma Close_stops_writer_witness :
  let r := steady (H := Example.runtime) 1 65001 [[EvClose; EvSet [Example.A1]]]
             Example.s0 Example.w0 in
  r.2 = Returned (Some errClosed)
  /\ closed r.1.1 = true
  /\ new r.1.1 = Some (keyed (H := Example.runtime) ∅ [Example.A1]).
Proof.
  intros r.
  destruct (Close_stops_writer (H := Example.runtime) 0 65001%Z [] [EvSet [Example.A1]] []
              Example.s0 Example.w0 eq_refl) as (Heq & Hcl & _).
  - eexists. reflexivity.
  - subst r. simpl app in Heq, Hcl. split; [by rewrite Heq |]. split; [exact Hcl |].
    rewrite Heq. reflexivity.
Defined.

Lemma sendKeepalive_cases_witness :
  emitted Example.w0 (sendKeepalive Example.s0 Example.w0).1.2 = [(7, MKeepalive)].
Proof.
  destruct (sendKeepalive_cases Example.s0 Example.w0) as (_ & _ & Hok & _).
  destruct (Hok eq_refl) as (_ & _ & Hw). exact (Hw 7 eq_refl eq_refl).
Defined.

Lemma ticker_ends_only_when_closed_witness :
  exists st s' w',
    sendKeepalives_step Tick (Some (30 * second)%Z) Scenario.shut Example.w0
    = Some (st, s', w')
    /\ st = TickerDone.
Proof.
  destruct (ticker_ends_only_when_closed (30 * second)%Z Scenario.shut Example.w0)
    as (st & s' & w' & Hstep & Hdone & _).
  exists st, s', w'. split; [exact Hstep | apply Hdone; reflexivity].
Defined.

Lemma ticker_panics_on_tiny_hold_witness :
  ticker_after (sendKeepalives_step HoldPublished None Scenario.tiny Example.w0)
  = Some TickerPanics.
Proof.
  apply (proj1 (ticker_panics_on_tiny_hold None Scenario.tiny Example.w0 eq_refl)).
  simpl. lia.
Defined.

Lemma writer_connection_stays_open_witness :
  let r := sendUpdates (H := Example.runtime) 4
             [[EvSet [Example.A1]; EvReaderExit 3; EvTick]; [EvReaderExit 7; EvSet [Example.A2]]]
             Example.s0 Example.w0 in
  live_open r.1.1 r.1.2.
Proof.
  apply (writer_connection_stays_open (H := Example.runtime)).
  intros c _ Hin. simpl in Hin. by apply elem_of_nil in Hin.
Defined.

Lemma writer_keeps_sets_well_keyed_witness :
  let r := sendUpdates (H := Example.runtime) 4
             [[EvSet [Example.A1]; EvSet [Example.A2]]; [EvClose; EvSet [Example.A3]]]
             Example.s0 Example.w0 in
  well_formed (H := Example.runtime) r.1.1.
Proof.
  apply (writer_keeps_sets_well_keyed (H := Example.runtime)).
  split; [| by intros n [=]]. simpl. intros c adv Hl. by rewrite lookup_empty in Hl.
Defined.

(** [Close] fell into the backoff: the next attempt still connects the
    closed session, which stays closed. *)
Lemma run_keeps_config_witness :
  let r := run (H := Example.runtime) [Scenario.once] 0 Scenario.shut Example.w0 in
  closed r.1.1.1 = true /\ conn r.1.1.1 = Some 8 /\ r.2 = RunParked.
Proof.
  intros r. split; [| split; vm_compute; reflexivity].
  exact (proj2 (run_keeps_config (H := Example.runtime) [Scenario.once] 0
                  Scenario.shut Example.w0) eq_refl).
Defined.

Lemma run_backs_off_when_unreachable_witness :
  (run (H := Example.runtime) Scenario.unreachable 0 Example.idle Example.w0).1.2
  = (4 * second)%Z.
Proof.
  rewrite (run_backs_off_when_unreachable (H := Example.runtime) Scenario.unreachable 0
             Example.idle Example.w0).
  - reflexivity.
  - repeat constructor.
Defined.

(** Only the local preference of 10.1.0.0/24 changes: nothing is sent. *)
Lemma diff_of_held_set_is_silent_witness :
  let n := keyed (H := Example.runtime) ∅ [Scenario.A1lp] in
  let r := diff (H := Example.runtime) 65001 7 n
             (Example.wanting [Example.A1] [Scenario.A1lp]) Example.w_cut in
  r.2 = None /\ wire r.1.2 = [] /\ advertised r.1.1 = n.
Proof.
  intros n r. subst r.
  rewrite (proj1 (diff_of_held_set_is_silent (H := Example.runtime) 65001 7
                    (Example.wanting [Example.A1] [Scenario.A1lp]) Example.w_cut) n).
  - done.
  - intros c adv Hl. subst n. simpl in Hl.
    apply lookup_insert_Some in Hl as [[<- <-]|[_ Hl]]; [| by rewrite lookup_empty in Hl].
    vm_compute. reflexivity.
  - intros c Hl. subst n. simpl in *.
    destruct (decide (Example.cidr (Example.net24 10 1 0) = c)) as [<-|Hne].
    + rewrite lookup_insert_eq. by eexists.
    + rewrite lookup_insert_ne, lookup_empty in Hl by done. by destruct Hl.
Defined.

Lemma diff_touches_each_prefix_once_witness :
  let n := keyed (H := Example.runtime) ∅ [Example.A1; Example.A4] in
  let s := Example.wanting [Example.A1; Example.A2; Example.A3] [Example.A1; Example.A4] in
  NoDup (announced (emitted Example.w0 (diff (H := Example.runtime) 65001 7 n s Example.w0).1.2)
         ++ withdrawn (emitted Example.w0 (diff (H := Example.runtime) 65001 7 n s Example.w0).1.2)).
Proof.
  intros n s.
  assert (Hv : forall advs, advs = [Example.A1; Example.A4]
                            \/ advs = [Example.A1; Example.A2; Example.A3] ->
               Forall (valid) advs).
  { intros advs [->| ->]; repeat constructor; vm_compute; try (eexists; reflexivity); lia. }
  apply (diff_touches_each_prefix_once (H := Example.runtime)).
  - apply well_keyed_keyed; [apply well_keyed_empty | apply Hv; by left].
  - apply (well_keyed_keyed (H := Example.runtime)); [apply well_keyed_empty | apply Hv; by right].
Defined.

(** The closed session of before reconnects and announces 10.1.0.0/24
    again. *)
Lemma reconnect_announces_everything_witness :
  let r := connect Scenario.answer Scenario.shut Example.w0 in
  emitted r.1.2 (first_pass (H := Example.runtime) r.1.1 r.1.2).1.2
  ≡ₚ [(8, MUpdate 65001 Example.A1)].
Proof.
  intros r.
  destruct (reconnect_announces_everything (H := Example.runtime) Scenario.answer
              Scenario.shut Example.w0 eq_refl eq_refl) as (c & Hd & _ & Hw & _).
  injection Hd as <-. subst r. rewrite Hw. vm_compute. reflexivity.
Defined.

Lemma reader_follows_the_framing_witness :
  consumeBGP 7 (stream Scenario.heard) Example.s0 Example.w0
  = Some (StopRead, consumeBGP_exit 7 Example.s0 Example.w0).
Proof.
  pose proof (proj1 (reader_follows_the_framing 7 Scenario.heard [] Example.s0 Example.w0
                       ltac:(repeat constructor; simpl; lia))) as Hr.
  rewrite app_nil_r in Hr. apply Hr. simpl. lia.
Defined.

(** The output has 65000:100 only; asking for 65000:200 gives no error. *)
Lemma ContainsCommunity_never_reports_absence_witness :
  Frr.Contains "65000:100" "65000:200" = false
  /\ (Frr.ContainsCommunity "65000:200" (Frr.mkShell [] [("65000:100", None)])).2 = None.
Proof.
  split; [reflexivity |].
  exact (proj2 (proj2 (FrrFacts.ContainsCommunity_never_reports_absence "65000:200"
                         (Frr.mkShell [] [("65000:100", None)])))
           "65000:100" [] eq_refl).
Defined.

Lemma RawDump_layout_witness :
  Frr.log (Frr.RawDump [Scenario.conf_file] Scenario.healthy).1
  = [["vtysh"; "-c"; "show running-config"]; ["cat"; Scenario.conf_file];
     ["vtysh"; "-c"; "show bgp neighbor"]; ["vtysh"; "-c"; "show bfd peer"]]
  /\ (Frr.RawDump [Scenario.conf_file] Scenario.healthy).2.2 = None.
Proof.
  rewrite (FrrFacts.RawDump_layout [Scenario.conf_file] Scenario.healthy
             "hostname r1" "neighbors" "peers" ["router bgp 65000"] []);
    [by split | reflexivity | reflexivity].
Defined.

Lemma RawDump_stops_at_first_failure_witness :
  exists msg,
    Frr.RawDump [Scenario.conf_file] Scenario.broken
    = (Frr.mkShell [["vtysh"; "-c"; "show running-config"]; ["cat"; Scenario.conf_file]] [],
       (EmptyString, Some (Frr.Wrapped msg Frr.ExecError))).
Proof.
  destruct (FrrFacts.RawDump_stops_at_first_failure [Scenario.conf_file] Scenario.broken
              [("hostname r1", None)] "" Frr.ExecError [] eq_refl) as [msg Hr].
  - repeat constructor.
  - simpl. lia.
  - exists msg. exact Hr.
Defined.

(** ** [Set] and the writer together *)

Section Convergence.
Context `{GoRuntime}.

Lemma keyed_NoDup_lookup advs (m : gmap string Advertisement) c adv :
  NoDup ((fun x => IPNet_String (Prefix x)) <$> advs) ->
  (forall x, x ∈ advs -> m !! IPNet_String (Prefix x) = None) ->
  keyed m advs !! c = Some adv
  <-> (adv ∈ advs /\ IPNet_String (Prefix adv) = c) \/ m !! c = Some adv.
Proof.
  revert m. induction advs as [|x advs IH]; intros m Hnd Hfresh.
  - simpl. split; [by right |]. intros [[Hin _]|?]; [by apply elem_of_nil in Hin | done].
  - rewrite fmap_cons in Hnd. apply NoDup_cons in Hnd as [Hx Hnd].
    cbn [keyed foldl]. fold (keyed (<[IPNet_String (Prefix x):=x]> m) advs).
    rewrite IH; [| done |].
    2: { intros y Hy. rewrite lookup_insert_ne.
         - apply Hfresh. by right.
         - intros Heq. apply Hx. apply list_elem_of_fmap. by exists y. }
    rewrite lookup_insert_Some, elem_of_cons. split.
    + intros [[Hin Hk]|[[Hk ->]|[Hne Hm]]]; [left; by split; [right |] | | by right].
      left. by split; [left |].
    + intros [[[->|Hin] Hk]|Hm].
      * right. by left.
      * left. by split.
      * right. right. split; [| done]. intros Heq. subst c.
        rewrite (Hfresh x) in Hm by by left. done.
Qed.

(** X23. For advertisements with pairwise different prefixes the order of
    the arguments of [Set] does not matter: two calls with the same
    advertisements in another order both fail or both succeed, and leave
    the same session. *)
Theorem Set_order_irrelevant (s : Session) (advs advs' : list Advertisement) :
  advs ≡ₚ advs' ->
  NoDup ((fun x => IPNet_String (Prefix x)) <$> advs) ->
  (Session_Set s advs).1 = (Session_Set s advs').1
  /\ (is_Some (Session_Set s advs).2 <-> is_Some (Session_Set s advs').2).
Proof.
  intros Hp Hnd.
  assert (Hnd' : NoDup ((fun x => IPNet_String (Prefix x)) <$> advs')) by by rewrite <- Hp.
  unfold Session_Set.
  destruct (Set_loop_spec advs ∅) as [[Hv ->]|[Hi [e ->]]],
           (Set_loop_spec advs' ∅) as [[Hv' ->]|[Hi' [e' ->]]]; simpl.
  - split; [| by split; intros [? [=]]]. f_equal. f_equal. apply map_eq. intros c.
    apply option_eq. intros adv.
    rewrite !keyed_NoDup_lookup by (done || (intros; apply lookup_empty)).
    by setoid_rewrite Hp.
  - exfalso. apply Exists_exists in Hi' as (x & Hin & Hbad).
    rewrite <- Hp in Hin. rewrite Forall_forall in Hv.
    by apply (valid_not_invalid x); auto.
  - exfalso. apply Exists_exists in Hi as (x & Hin & Hbad).
    rewrite Hp in Hin. rewrite Forall_forall in Hv'.
    by apply (valid_not_invalid x); auto.
  - split; [done |]. by split; intros _; eexists.
Qed.

(** X24. [Set] on an open, connected session whose writer waits wakes it
    for one diff: when no write fails the writer commits and goes back to
    wait, and the advertised set is then exactly the set given, keyed by
    prefix text; nothing stays pending, and the connection is kept. *)
Theorem Set_converges
  (fuel : nat) (a : Z) (cn : Conn) (advs : list Advertisement) (s : Session) (w : World) :
  closed s = false -> conn s = Some cn -> new s = None ->
  Forall valid advs -> script w = [] ->
  (steady (S (S fuel)) a [[EvSet advs]] s w).2 = Parked
  /\ advertised (steady (S (S fuel)) a [[EvSet advs]] s w).1.1 = keyed ∅ advs
  /\ new (steady (S (S fuel)) a [[EvSet advs]] s w).1.1 = None
  /\ conn (steady (S (S fuel)) a [[EvSet advs]] s w).1.1 = Some cn
  /\ (steady (S (S fuel)) a [[EvSet advs]] s w).1
     = (diff a cn (keyed ∅ advs) (with_new s (Some (keyed ∅ advs))) w).1.
Proof.
  intros Hcl Hc Hn Hv Hs.
  assert (Hstep : steady (S (S fuel)) a [[EvSet advs]] s w
                  = steady (S (S fuel)) a [] (with_new s (Some (keyed ∅ advs))) w).
  { cbn [steady wait]. rewrite Hn, Hc. cbn [run_events run_event].
    rewrite (Set_ok s advs Hv). cbn [fst]. done. }
  rewrite Hstep. rewrite (steady_diff _ _ _ cn (keyed ∅ advs)) by done.
  pose proof (diff_quiet a cn (keyed ∅ advs) (with_new s (Some (keyed ∅ advs))) w Hs) as Hq.
  pose proof (diff_cases a cn (keyed ∅ advs) (with_new s (Some (keyed ∅ advs))) w) as Hd.
  destruct (diff a cn _ _ w) as [[s2 w2] e]. simpl in Hq. subst e. simpl in Hd.
  destruct Hd as [(_ & -> & _)|[(? & ? & ? & ? & _)|(? & _)]]; [| done ..].
  simpl. by rewrite Hc.
Qed.

End Convergence.

Lemma Set_order_irrelevant_witness :
  (Session_Set (H := Example.runtime) Example.s0 [Example.A1; Example.A2]).1
  = (Session_Set (H := Example.runtime) Example.s0 [Example.A2; Example.A1]).1.
Proof.
  apply (Set_order_irrelevant (H := Example.runtime) Example.s0).
  - apply perm_swap.
  - vm_compute. apply NoDup_cons. split; [| apply NoDup_singleton].
    by intros [=]%list_elem_of_singleton.
Defined.

(** Scenario 1 of the spec, from the connected session on. *)
Lemma Set_converges_witness :
  let r := steady (H := Example.runtime) 2 65001 [[EvSet [Example.A1]]] Example.s0 Example.w0 in
  r.2 = Parked /\ advertised r.1.1 = {[ "10.1.0.0/24" := Example.A1 ]}.
Proof.
  intros r.
  destruct (Set_converges (H := Example.runtime) 0 65001 7 [Example.A1]
              Example.s0 Example.w0) as (Hp & Ha & _); try reflexivity.
  - repeat constructor; vm_compute; try (eexists; reflexivity); lia.
  - split; [exact Hp | exact Ha].
Defined.

(** C6 as the spec words it does not hold.  With 10 s configured and a
    peer asking for 30 s the hold time is 10 s and the period of the
    ticker is 3333333333 ns, three of which are not the hold time: the
    period is not exactly one third.  With 2 ns configured the attempt
    succeeds too, the hold time is 2 ns, and the ticker sends no keepalive
    at any period: [time.NewTicker] panics. *)
Lemma keepalive_period_not_a_third :
  let r := connect Scenario.answer Scenario.ten Example.w0 in
  let r2 := connect Scenario.answer Scenario.tiny Example.w0 in
  (r.2 = None
   /\ actualHoldTime r.1.1 = (10 * second)%Z
   /\ ticker_after (sendKeepalives_step HoldPublished None r.1.1 r.1.2)
      = Some (TickerRuns (Some 3333333333%Z))
   /\ (3 * 3333333333 <> 10 * second)%Z)
  /\ (r2.2 = None
      /\ actualHoldTime r2.1.1 = 2%Z
      /\ ticker_after (sendKeepalives_step HoldPublished None r2.1.1 r2.1.2)
         = Some TickerPanics).
Proof. vm_compute. repeat split; (reflexivity || discriminate). Qed.

(** Two calls of [Set] during one wait of the writer: when it has the lock
    again only the second set is pending, and only that one is sent. *)
Example Set_then_Set_coalesces :
  let r := steady (H := Example.runtime) 2 65001
             [[EvSet [Example.A1]; EvSet [Example.A2]]] Example.s0 Example.w0 in
  wire r.1.2 = [(7, MUpdate 65001 Example.A2)] /\ r.2 = Parked.
Proof. vm_compute. split; reflexivity. Qed.
